(** * Verification of the stoneforge orchestration core

    Shallow embedding of
    - [packages/smithy/src/git/merge.ts] (the git merge engine: [execGitSafe],
      [hasRemote], [detectTargetBranch], [mergeBranch], [syncLocalBranch],
      [syncLocalBranchFromCommit]),
    - [packages/smithy/src/server/routes/diagnostics.ts] ([collectStuckTasks]),
    - the rate-limit tracker [RateLimitTrackerImpl] of
      [packages/smithy/src/providers/claude/headless.bun.test.ts],
    - and, modelled from the spec, the session-route rate-limit guard and
      the dispatch daemon's startup latch.

    The git engine only talks to the outside world through
    [execAsync(command, {cwd})], [fs.existsSync], [Date.now] and
    [process.cwd] (inside [path.resolve]).  We model these as an
    environment: an oracle answering each git invocation (it sees the full
    history of earlier invocations, so any deterministic repository
    behaviour is covered), a predicate for [existsSync], the clock value and
    the process working directory.  Every invocation is recorded in a trace. *)

From Stdlib Require Import String Ascii List Bool ZArith NArith Lia.
From stdpp Require Import base gmap strings.
Import ListNotations.
Open Scope string_scope.

(* ------------------------------------------------------------------ *)
(** ** JavaScript string helpers *)

Module JsString.

Definition is_ws (c : ascii) : bool :=
  let n := nat_of_ascii c in
  Nat.eqb n 32 || Nat.eqb n 9 || Nat.eqb n 10 || Nat.eqb n 11 || Nat.eqb n 12
  || Nat.eqb n 13.

Fixpoint trim_start (s : string) : string :=
  match s with
  | EmptyString => EmptyString
  | String c s' => if is_ws c then trim_start s' else s
  end.

Definition rev_str (s : string) : string :=
  string_of_list_ascii (rev (list_ascii_of_string s)).

(** [String.prototype.trim] (ASCII whitespace). *)
Definition trim (s : string) : string :=
  rev_str (trim_start (rev_str (trim_start s))).

(** [s.startsWith(p)] *)
Fixpoint starts_with (p s : string) : bool :=
  match p, s with
  | EmptyString, _ => true
  | String a p', String b s' => Ascii.eqb a b && starts_with p' s'
  | String _ _, EmptyString => false
  end.

(** [s.includes(p)] *)
Fixpoint includes (s p : string) : bool :=
  starts_with p s ||
  match s with
  | EmptyString => false
  | String _ s' => includes s' p
  end.

Definition newline : ascii := ascii_of_nat 10.

(** The longest prefix without a line terminator: what a greedy [(.+)]
    (or [.*]) captures, since [.] does not match ['\n']. *)
Fixpoint take_line (s : string) : string :=
  match s with
  | EmptyString => EmptyString
  | String c s' => if Ascii.eqb c newline then EmptyString else String c (take_line s')
  end.

(** [s] after dropping [n] characters. *)
Fixpoint drop (n : nat) (s : string) : string :=
  match n, s with
  | O, _ => s
  | S n', String _ s' => drop n' s'
  | S _, EmptyString => EmptyString
  end.

(** Leftmost match of [/<p>(.+)/] on [s]: the capture group, if any. *)
Fixpoint match_prefix_line (p s : string) : option string :=
  let rest := drop (String.length p) s in
  if starts_with p s && negb (String.eqb (take_line rest) EmptyString)
  then Some (take_line rest)
  else match s with
       | EmptyString => None
       | String _ s' => match_prefix_line p s'
       end.

(** [[...s.matchAll(/<p>(.+)/g)].map(m => m[1])]: every non-overlapping
    leftmost match, scanning on after the end of each match. *)
Fixpoint match_all_prefix_line_aux (fuel : nat) (p s : string) : list string :=
  match fuel with
  | O => []
  | S fuel' =>
    let rest := drop (String.length p) s in
    let cap := take_line rest in
    if starts_with p s && negb (String.eqb cap EmptyString)
    then cap :: match_all_prefix_line_aux fuel' p (drop (String.length cap) rest)
    else match s with
         | EmptyString => []
         | String _ s' => match_all_prefix_line_aux fuel' p s'
         end
  end.

Definition match_all_prefix_line (p s : string) : list string :=
  match_all_prefix_line_aux (S (String.length s)) p s.

Definition dquote : ascii := ascii_of_nat 34.
Definition backslash : ascii := ascii_of_nat 92.

(** [str.replace(/"/g, '\"')] *)
Fixpoint escape_quotes (s : string) : string :=
  match s with
  | EmptyString => EmptyString
  | String c s' =>
    if Ascii.eqb c dquote then String backslash (String dquote (escape_quotes s'))
    else String c (escape_quotes s')
  end.

Definition is_alnum_dash (c : ascii) : bool :=
  let n := nat_of_ascii c in
  (Nat.leb 48 n && Nat.leb n 57) || (Nat.leb 65 n && Nat.leb n 90)
  || (Nat.leb 97 n && Nat.leb n 122) || Nat.eqb n 45.

(** [sourceBranch.replace(/[^a-zA-Z0-9-]/g, '-')] *)
Fixpoint safe_name (s : string) : string :=
  match s with
  | EmptyString => EmptyString
  | String c s' => String (if is_alnum_dash c then c else "-"%char) (safe_name s')
  end.

(** Decimal rendering of a non-negative integer ([String(Date.now())]). *)
Fixpoint digits_aux (fuel : nat) (n : N) (acc : string) : string :=
  match fuel with
  | O => acc
  | S f =>
    let acc' := String (ascii_of_N (48 + N.modulo n 10)) acc in
    if N.ltb n 10 then acc' else digits_aux f (N.div n 10) acc'
  end.

Definition N_to_string (n : N) : string := digits_aux (S (N.to_nat (N.log2 n))) n EmptyString.

End JsString.

(* ------------------------------------------------------------------ *)
(** ** Node's [path] module *)

Module NodePath.
Import JsString.

Definition slash : ascii := "/"%char.

(** Split a path string on ['/']. *)
Fixpoint split (s : string) : list string :=
  match s with
  | EmptyString => [EmptyString]
  | String c s' =>
    if Ascii.eqb c slash then EmptyString :: split s'
    else match split s' with
         | h :: t => String c h :: t
         | [] => [String c EmptyString]
         end
  end.

(** One step of segment normalisation on a reversed stack. *)
Definition norm_step (stack : list string) (seg : string) : list string :=
  if String.eqb seg EmptyString || String.eqb seg "." then stack
  else if String.eqb seg ".." then tl stack
  else seg :: stack.

Definition normalize (segs : list string) : list string :=
  rev (fold_left norm_step segs []).

Fixpoint render_segs (segs : list string) : string :=
  match segs with
  | [] => EmptyString
  | s :: rest => "/" ++ s ++ render_segs rest
  end.

Definition render (segs : list string) : string :=
  match segs with
  | [] => "/"
  | _ => render_segs segs
  end.

Definition is_absolute (p : string) : bool := starts_with "/" p.

(** [path.resolve(p)] with [process.cwd()] = [cwd] (an absolute path). *)
Definition resolve (cwd p : string) : string :=
  render (normalize ((if is_absolute p then [] else split cwd) ++ split p)).

(** [path.join(a, b, c)]: the non-empty arguments joined by ['/'].  Node
    also normalises the joined string; we keep it unnormalised, which
    [path.resolve] (and the operating system, for a [cwd]) read the same. *)
Definition join3 (a b c : string) : string :=
  match List.filter (fun s => negb (String.eqb s EmptyString)) [a; b; c] with
  | [] => "."
  | x :: xs => fold_left (fun acc y => acc ++ "/" ++ y) xs x
  end.

(** A string without a path separator. *)
Definition no_slash (s : string) : Prop :=
  Forall (fun c => c <> slash) (list_ascii_of_string s).

(** A segment that normalisation keeps. *)
Definition plain (s : string) : Prop := s <> EmptyString /\ s <> "." /\ s <> "..".

(** The directory of the temporary worktrees, relative to the root. *)
Definition wt_base := ".stoneforge/.worktrees".

End NodePath.

(* ------------------------------------------------------------------ *)
(** ** The git command runner and its trace *)

Module Git.
Import JsString.

(** The git invocations of merge.ts, one constructor per command line
    (arguments kept as the source interpolates them). *)
Inductive gitcmd :=
| RemoteGetUrl (remote : string)          (* git remote get-url <remote> *)
| SymbolicRefOriginHead                   (* git symbolic-ref refs/remotes/origin/HEAD *)
| RevParseVerify (ref : string)           (* git rev-parse --verify <ref> *)
| FetchOrigin                             (* git fetch origin *)
| MergeBase (ref src : string)            (* git merge-base <ref> <src> *)
| MergeTree (base ref src : string)       (* git merge-tree <base> <ref> <src> *)
| WorktreeRemove (dir : string)           (* git worktree remove --force "<dir>" *)
| WorktreeAdd (dir ref : string)          (* git worktree add --detach "<dir>" <ref> *)
| MergeSquash (src : string)              (* git merge --squash <src> *)
| Commit (msg : string)                   (* git commit -m "<msg>" *)
| RevParseHead                            (* git rev-parse HEAD *)
| MergeNoFF (msg src : string)            (* git merge --no-ff -m "<msg>" <src> *)
| Push (target : string)                  (* git push origin HEAD:<target> *)
| ResetHard                               (* git reset --hard HEAD *)
| MergeAbort                              (* git merge --abort *)
| SymbolicRefShortHead                    (* git symbolic-ref --short HEAD *)
| MergeFFOnly (ref : string)              (* git merge --ff-only <ref> *)
| FetchRefspec (target : string)          (* git fetch origin <target>:<target> *)
| BranchForce (target hash : string).     (* git branch -f <target> <hash> *)

(** Commands that change refs, the index or a working tree. *)
Definition is_mutating (c : gitcmd) : bool :=
  match c with
  | RemoteGetUrl _ | SymbolicRefOriginHead | RevParseVerify _ | MergeBase _ _
  | MergeTree _ _ _ | RevParseHead | SymbolicRefShortHead => false
  | _ => true
  end.

(** One recorded invocation: command, [cwd], and whether it went through
    [execGitSafe]. *)
Record call := mkCall { c_cmd : gitcmd; c_cwd : string; c_safe : bool }.

(** A thrown JavaScript value, as the catch blocks read it: an [exec]
    failure carries [stdout], [stderr] and [message]; an [Error] only a
    [message]. *)
Record err := mkErr { e_stdout : option string; e_stderr : option string;
                      e_message : option string }.

(** What [execAsync] settles to: resolved with [stdout], or rejected. *)
Inductive exec_result := Ok (stdout : string) | Fail (e : err).

Definition trace := list call.

(** State (the trace) and exceptions. *)
Definition M (A : Type) : Type := trace -> (A + err) * trace.

Definition ret {A} (a : A) : M A := fun tr => (inl a, tr).
Definition bind {A B} (m : M A) (k : A -> M B) : M B :=
  fun tr => match m tr with
            | (inl a, tr') => k a tr'
            | (inr e, tr') => (inr e, tr')
            end.
Definition throw {A} (e : err) : M A := fun tr => (inr e, tr).

(** [try { m } catch (e) { h(e) }] *)
Definition catch {A} (m : M A) (h : err -> M A) : M A :=
  fun tr => match m tr with
            | (inr e, tr') => h e tr'
            | r => r
            end.

(** [try { m } finally { f }]: a throw in [f] replaces the outcome. *)
Definition finally {A} (m : M A) (f : M unit) : M A :=
  fun tr => let '(r, tr1) := m tr in
            match f tr1 with
            | (inr e, tr2) => (inr e, tr2)
            | (inl _, tr2) => (r, tr2)
            end.

Notation "x <- m ;; k" := (bind m (fun x => k))
  (at level 64, m at next level, right associativity).
Notation "m ;;; k" := (bind m (fun _ => k)) (at level 64, right associativity).

(** MergeBranchOptions *)
Inductive strategy := Squash | MergeNoFFStrategy.

Record MergeBranchOptions := mkOptions {
  workspaceRoot : string;
  sourceBranch : string;
  targetBranch : option string;
  mergeStrategy : option strategy;
  autoPush : option bool;
  commitMessage : option string;
  preflight : option bool;
  syncLocal : option bool;
  localOnly : option bool }.

(** MergeBranchResult *)
Record MergeBranchResult := mkResult {
  success : bool;
  commitHash : option string;
  hasConflict : bool;
  error : option string;
  conflictFiles : option (list string) }.

Section Runner.

(** The environment. *)
Variable oracle : trace -> call -> exec_result.
Variable exists_sync : string -> bool.
Variable date_now : N.
Variable process_cwd : string.

(** Invoke a command and record it. *)
Definition run (c : call) : M string :=
  fun tr => match oracle tr c with
            | Ok out => (inl out, app tr [c])
            | Fail e => (inr e, app tr [c])
            end.

(** [execAsync(`git <cmd>`, { cwd })] *)
Definition execAsync (c : gitcmd) (cwd : string) : M string :=
  run (mkCall c cwd false).

(** [execGitSafe]: refuses when the resolved worktree path is the resolved
    workspace root. *)
Definition execGitSafe (c : gitcmd) (worktreePath workspaceRoot : string) : M string :=
  if String.eqb (NodePath.resolve process_cwd worktreePath)
                (NodePath.resolve process_cwd workspaceRoot)
  then throw (mkErr None None (Some "SAFETY: Refusing to run git in main repo. Use a worktree."))
  else run (mkCall c worktreePath true).

(** [hasRemote] *)
Definition hasRemote (workspaceRoot remoteName : string) : M bool :=
  catch (execAsync (RemoteGetUrl remoteName) workspaceRoot ;;; ret true)
        (fun _ => ret false).

(** Try a detection step; a rejection falls through to [None]. *)
Definition attempt (m : M (option string)) : M (option string) :=
  catch m (fun _ => ret None).

Definition or_else (m1 m2 : M (option string)) : M (option string) :=
  r <- m1 ;; match r with Some _ => ret r | None => m2 end.

(** The remote probes of [detectTargetBranch]. *)
Definition try_origin_head (workspaceRoot : string) : M (option string) :=
  attempt (out <- execAsync SymbolicRefOriginHead workspaceRoot ;;
           ret (match_prefix_line "refs/remotes/origin/" (trim out))).

Definition try_verify (ref name workspaceRoot : string) : M (option string) :=
  attempt (execAsync (RevParseVerify ref) workspaceRoot ;;; ret (Some name)).

(** [for (const name of ['main', 'master']) ...] *)
Fixpoint try_local (names : list string) (workspaceRoot : string) : M (option string) :=
  match names with
  | [] => ret None
  | name :: rest =>
    or_else (try_verify ("refs/heads/" ++ name) name workspaceRoot)
            (try_local rest workspaceRoot)
  end.

(** [detectTargetBranch] *)
Definition detectTargetBranch (workspaceRoot : string) : M string :=
  remoteExists <- hasRemote workspaceRoot "origin" ;;
  r <- or_else
         (if remoteExists
          then or_else (try_origin_head workspaceRoot)
                 (or_else (try_verify "origin/main" "main" workspaceRoot)
                          (try_verify "origin/master" "master" workspaceRoot))
          else ret None)
         (try_local ["main"; "master"] workspaceRoot) ;;
  ret (match r with Some b => b | None => "main" end).

(** [x ?? d] *)
Definition opt_or {A} (d : A) (o : option A) : A :=
  match o with Some x => x | None => d end.

(** [/CONFLICT \([^)]+\): Merge conflict in (.+)/g]: the full matches.
    [[^)]+] runs up to the first [')'] (it cannot stop earlier, since a
    [')'] must follow), the capture up to the end of the line. *)
Fixpoint until_paren (s : string) : string :=
  match s with
  | EmptyString => EmptyString
  | String c s' => if Ascii.eqb c ")"%char then EmptyString else String c (until_paren s')
  end.

Definition conflict_head := "CONFLICT (".
Definition conflict_mid := "): Merge conflict in ".

Fixpoint conflict_matches_aux (fuel : nat) (s : string) : list string :=
  match fuel with
  | O => []
  | S fuel' =>
    let r := drop (String.length conflict_head) s in
    let inside := until_paren r in
    let r2 := drop (String.length inside) r in
    let r3 := drop (String.length conflict_mid) r2 in
    let cap := take_line r3 in
    if starts_with conflict_head s && negb (String.eqb inside EmptyString)
       && starts_with conflict_mid r2 && negb (String.eqb cap EmptyString)
    then (conflict_head ++ inside ++ conflict_mid ++ cap)
           :: conflict_matches_aux fuel' (drop (String.length cap) r3)
    else match s with
         | EmptyString => []
         | String _ s' => conflict_matches_aux fuel' s'
         end
  end.

Definition conflict_matches (s : string) : list string :=
  conflict_matches_aux (S (String.length s)) s.

(** [m.match(/in (.+)$/)]: the leftmost ["in "] followed by a non-empty
    rest of the string without line terminator. *)
Fixpoint match_in_end (m : string) : option string :=
  let rest := drop 3 m in
  if starts_with "in " m && negb (String.eqb rest EmptyString)
     && String.eqb (take_line rest) rest
  then Some rest
  else match m with
       | EmptyString => None
       | String _ m' => match_in_end m'
       end.

(** The [catch] of [mergeBranch]: combined output of the thrown value. *)
Definition output_of (e : err) : string :=
  opt_or "" (e_stdout e) ++ opt_or "" (e_stderr e) ++ opt_or "" (e_message e).

Definition preflight_conflict (out : string) : MergeBranchResult :=
  let files := match_all_prefix_line "+++ b/" out in
  mkResult false None true (Some "Pre-flight: merge conflicts detected")
           (match files with [] => None | _ => Some files end).

(** Step 2 of [mergeBranch]: [Some r] returns early with [r]. *)
Definition preflight_check (lo : bool) (root target src : string)
  : M (option MergeBranchResult) :=
  let ref := if lo then target else "origin/" ++ target in
  catch (mb <- execAsync (MergeBase ref src) root ;;
         dry <- catch (out <- execAsync (MergeTree (trim mb) ref src) root ;; ret (Some out))
                      (fun e => ret (e_stdout e)) ;;
         match dry with
         | Some out => if includes out "<<<<<<<" then ret (Some (preflight_conflict out))
                       else ret None
         | None => ret None
         end)
        (fun _ => ret None).

(** The [try] block of [mergeBranch] (steps 4 to 6). *)
Definition merge_body (strat : strategy) (push lo : bool)
  (root src target message mergeDir : string) : M MergeBranchResult :=
  hash <- match strat with
          | Squash =>
            execGitSafe (MergeSquash src) mergeDir root ;;;
            execGitSafe (Commit (escape_quotes message)) mergeDir root ;;;
            h <- execGitSafe RevParseHead mergeDir root ;;
            ret (trim h)
          | MergeNoFFStrategy =>
            execGitSafe (MergeNoFF (escape_quotes message) src) mergeDir root ;;;
            h <- execGitSafe RevParseHead mergeDir root ;;
            ret (trim h)
          end ;;
  (if push && negb lo
   then catch (execGitSafe (Push target) mergeDir root) (fun _ => ret "")
   else ret "") ;;;
  ret (mkResult true (Some hash) false None None).

(** The [catch (error)] block of [mergeBranch]. *)
Definition merge_catch (strat : strategy) (root mergeDir : string) (e : err)
  : M MergeBranchResult :=
  let output := output_of e in
  if includes output "CONFLICT" || includes output "Automatic merge failed"
  then
    catch (match strat with
           | Squash => execGitSafe ResetHard mergeDir root
           | MergeNoFFStrategy => execGitSafe MergeAbort mergeDir root
           end) (fun _ => ret "") ;;;
    let files :=
      match conflict_matches output with
      | [] => None
      | ms => Some (List.filter (fun f => negb (String.eqb f EmptyString))
                           (map (fun m => opt_or "" (match_in_end m)) ms))
      end in
    ret (mkResult false None true (Some "Merge conflict detected") files)
  else
    ret (mkResult false None false
                  (Some (if String.eqb output EmptyString then "Merge failed" else output))
                  None).

(** [currentBranch] as both sync functions compute it. *)
Definition current_branch (root : string) : M (option string) :=
  catch (out <- execAsync SymbolicRefShortHead root ;; ret (Some (trim out)))
        (fun _ => ret None).

(** [syncLocalBranch] *)
Definition syncLocalBranch (root target : string) : M unit :=
  catch (cur <- current_branch root ;;
         match cur with
         | None => ret tt
         | Some c =>
           if String.eqb c EmptyString then ret tt
           else if String.eqb c target
           then execAsync (MergeFFOnly ("origin/" ++ target)) root ;;; ret tt
           else execAsync (FetchRefspec target) root ;;; ret tt
         end)
        (fun _ => ret tt).

(** [syncLocalBranchFromCommit] *)
Definition syncLocalBranchFromCommit (root target hash : string) : M unit :=
  catch (cur <- current_branch root ;;
         if match cur with Some c => String.eqb c target | None => false end
         then execAsync (MergeFFOnly hash) root ;;; ret tt
         else execAsync (BranchForce target hash) root ;;; ret tt)
        (fun _ => ret tt).

(** The temporary worktree directory. *)
Definition merge_dir_name (src : string) : string :=
  "_merge-" ++ safe_name src ++ "-" ++ N_to_string date_now.

Definition merge_dir (root src : string) : string :=
  NodePath.join3 root ".stoneforge/.worktrees" (merge_dir_name src).

Definition default_message (strat : strategy) (src target : string) : string :=
  match strat with
  | Squash => "Squash merge " ++ src ++ " into " ++ target
  | MergeNoFFStrategy => "Merge branch '" ++ src ++ "'"
  end.

(** Step 8 of [mergeBranch]. *)
Definition sync_step (r : MergeBranchResult) (sync lo push : bool) (root target : string)
  : M unit :=
  if success r && sync then
    if lo then syncLocalBranchFromCommit root target (opt_or "" (commitHash r))
    else if push then syncLocalBranch root target
    else ret tt
  else ret tt.

(** Everything after [git worktree add]: the try/catch/finally block and
    step 8. *)
Definition after_worktree_add (strat : strategy) (push sync lo : bool)
  (root src target message mergeDir : string) : M MergeBranchResult :=
  r <- finally (catch (merge_body strat push lo root src target message mergeDir)
                      (merge_catch strat root mergeDir))
               (catch (execAsync (WorktreeRemove mergeDir) root ;;; ret tt) (fun _ => ret tt)) ;;
  sync_step r sync lo push root target ;;;
  ret r.

(** The phase from worktree creation on (steps 3 to 8). *)
Definition worktree_phase (strat : strategy) (push sync lo : bool)
  (root src target message : string) : M MergeBranchResult :=
  let mergeDir := merge_dir root src in
  (if exists_sync mergeDir then execAsync (WorktreeRemove mergeDir) root else ret "") ;;;
  execAsync (WorktreeAdd mergeDir (if lo then target else "origin/" ++ target)) root ;;;
  after_worktree_add strat push sync lo root src target message mergeDir.

(** [mergeBranch] *)
Definition mergeBranch (o : MergeBranchOptions) : M MergeBranchResult :=
  let root := workspaceRoot o in
  let src := sourceBranch o in
  let strat := opt_or Squash (mergeStrategy o) in
  let push := opt_or true (autoPush o) in
  let pre := opt_or true (preflight o) in
  let sync := opt_or true (syncLocal o) in
  lo <- match localOnly o with
        | Some b => ret b
        | None => r <- hasRemote root "origin" ;; ret (negb r)
        end ;;
  target <- match targetBranch o with
            | Some t => ret t
            | None => detectTargetBranch root
            end ;;
  let message := opt_or (default_message strat src target) (commitMessage o) in
  (if lo then ret "" else execAsync FetchOrigin root) ;;;
  early <- (if pre then preflight_check lo root target src else ret None) ;;
  match early with
  | Some r => ret r
  | None => worktree_phase strat push sync lo root src target message
  end.

End Runner.
End Git.

(* ------------------------------------------------------------------ *)
(** ** The rate-limit tracker *)

(** [RateLimitTrackerImpl] of [providers/claude/headless.bun.test.ts]: a
    [Map] from executable names to entries.  Times are milliseconds since
    the epoch.  [Date.now()] is read anew by every [isLimited] call; a loop
    over a chain sees the [k]-th reading as [clock k]. *)

Module RateLimit.

(** [InternalEntry]. *)
Record InternalEntry := mkEntry { resetsAt : Z; recordedAt : Z }.

(** The private [limits] map. *)
Abbreviation tracker := (gmap string InternalEntry) (only parsing).

(** [markLimited(executable, resetsAt)]; [now] is the [new Date()] stored
    as [recordedAt].  An existing entry, live or not, whose reset time is
    later or equal is kept. *)
Definition markLimited (now : Z) (executable : string) (t : Z) (limits : tracker) : tracker :=
  match limits !! executable with
  | Some existing =>
    if Z.geb (resetsAt existing) t then limits
    else <[executable := mkEntry t now]> limits
  | None => <[executable := mkEntry t now]> limits
  end.

(** [isLimited(executable)] at [Date.now() = now]: an entry that has reset
    is deleted and reads as not limited. *)
Definition isLimited (now : Z) (executable : string) (limits : tracker) : bool * tracker :=
  match limits !! executable with
  | None => (false, limits)
  | Some entry =>
    if Z.leb (resetsAt entry) now then (false, delete executable limits)
    else (true, limits)
  end.

(** The [for ... of] loop of [getAvailableExecutable], from the [k]-th
    [isLimited] call on. *)
Fixpoint getAvailableExecutable_loop (clock : nat -> Z) (k : nat) (chain : list string)
  (limits : tracker) : option string * tracker :=
  match chain with
  | [] => (None, limits)
  | executable :: rest =>
    let '(lim, limits') := isLimited (clock k) executable limits in
    if lim then getAvailableExecutable_loop clock (S k) rest limits'
    else (Some executable, limits')
  end.

(** [getAvailableExecutable(fallbackChain)]. *)
Definition getAvailableExecutable (clock : nat -> Z) (chain : list string) (limits : tracker)
  : option string * tracker :=
  getAvailableExecutable_loop clock 0 chain limits.

(** [fallbackChain.every(executable => this.isLimited(executable))]: stops
    at the first [false]. *)
Fixpoint every_limited (clock : nat -> Z) (k : nat) (chain : list string) (limits : tracker)
  : bool * tracker :=
  match chain with
  | [] => (true, limits)
  | executable :: rest =>
    let '(lim, limits') := isLimited (clock k) executable limits in
    if lim then every_limited clock (S k) rest limits' else (false, limits')
  end.

(** [isAllLimited(fallbackChain)]. *)
Definition isAllLimited (clock : nat -> Z) (chain : list string) (limits : tracker)
  : bool * tracker :=
  match chain with
  | [] => (false, limits)
  | _ => every_limited clock 0 chain limits
  end.

(** The private [expireStale()] at [Date.now() = now]. *)
Definition expireStale (now : Z) (limits : tracker) : tracker :=
  filter (fun kv => ~ (resetsAt kv.2 <= now)%Z) limits.

(** The loop body of [getSoonestResetTime]. *)
Definition soonest_step (_ : string) (entry : InternalEntry) (soonest : option Z) : option Z :=
  match soonest with
  | None => Some (resetsAt entry)
  | Some s => if Z.ltb (resetsAt entry) s then Some (resetsAt entry) else Some s
  end.

(** [getSoonestResetTime()]: the least [resetsAt] left after
    [expireStale]; the [Map] iteration order does not matter for it. *)
Definition getSoonestResetTime (now : Z) (limits : tracker) : option Z * tracker :=
  let limits' := expireStale now limits in
  (map_fold soonest_step None limits', limits').

(** The reset time in force for [e] at time [n]: the [resetsAt] of its
    entry once [expireStale] has run at [n], as [getAllLimits] reports it. *)
Definition effective_reset (n : Z) (limits : tracker) (e : string) : option Z :=
  option_map resetsAt (expireStale n limits !! e).

(** The answer [isLimited] gives for [e] at time [n]. *)
Definition limited_at (n : Z) (limits : tracker) (e : string) : bool :=
  fst (isLimited n e limits).

End RateLimit.

(* ------------------------------------------------------------------ *)
(** ** The rate-limit guard of the session routes *)

Module SessionRoutes.





Section Guard.

(** How the route turns the milliseconds left until [soonestReset] into
    whole seconds: the spec leaves it open (only the clamp and the default
    are given), so it is a parameter of the model. *)
Variable seconds_of : Z -> Z.



End Guard.

End SessionRoutes.

(* ------------------------------------------------------------------ *)
(** ** Diagnostics: stuck tasks *)

Module Diagnostics.

(** [TaskStatus] of the core package. *)
Inductive TaskStatus :=
| Open | InProgress | Blocked | Deferred | Backlog | Review | Closed | Tombstone.

Definition status_eqb (a b : TaskStatus) : bool :=
  match a, b with
  | Open, Open | InProgress, InProgress | Blocked, Blocked | Deferred, Deferred
  | Backlog, Backlog | Review, Review | Closed, Closed | Tombstone, Tombstone => true
  | _, _ => false
  end.

(** The part of [getOrchestratorTaskMeta(task.metadata)] the route reads. *)
Record OrchestratorTaskMeta := mkMeta {
  assignedAgent : option string; resumeCount : option Z; mergeStatus : option string }.

Record Task := mkTask {
  id : string; title : string; status : TaskStatus;
  orchestrator : option OrchestratorTaskMeta }.

Record StuckTaskDiagnostic := mkStuck {
  taskId : string; sd_title : string; sd_status : TaskStatus;
  assignee : option string; sd_resumeCount : Z; sd_mergeStatus : option string }.

(** JavaScript truthiness of an optional string. *)
Definition truthy (s : option string) : bool :=
  match s with Some a => negb (String.eqb a EmptyString) | None => false end.

(** The body of the [for] loop of [collectStuckTasks] for one candidate;
    [getActiveSession] is [services.sessionManager.getActiveSession]. *)
Definition stuck_entry {S} (getActiveSession : string -> option S) (task : Task)
  : option StuckTaskDiagnostic :=
  match orchestrator task with
  | None => None
  | Some meta =>
    let rc := match resumeCount meta with Some n => n | None => 0%Z end in
    match assignedAgent meta with
    | Some a =>
      if negb (String.eqb a EmptyString) && Z.leb 2 rc then
        match getActiveSession a with
        | None =>
          Some (mkStuck (id task)
                        (if String.eqb (title task) EmptyString then id task else title task)
                        (status task) (Some a) rc (mergeStatus meta))
        | Some _ => None
        end
      else None
    | None => None
    end
  end.

(** [collectStuckTasks]: [allTasks] is [services.api.list({ type: 'task' })]. *)
Definition collectStuckTasks {S} (getActiveSession : string -> option S) (allTasks : list Task)
  : list StuckTaskDiagnostic :=
  let candidateTasks :=
    List.filter (fun t => status_eqb (status t) InProgress || status_eqb (status t) Review) allTasks in
  fold_right (fun t acc => match stuck_entry getActiveSession t with
                           | Some d => d :: acc
                           | None => acc
                           end) [] candidateTasks.

End Diagnostics.

(* ------------------------------------------------------------------ *)
(** ** The merge-queue and agent-pool diagnostics *)

Module MergeQueue.
Import Diagnostics.
Local Open Scope list_scope.

(** One element of [MergeQueueDiagnostic.stuckTasks]. *)
Record MergeQueueEntry := mkMQEntry {
  mq_taskId : string; mq_title : string; mq_mergeStatus : string; mq_updatedAt : string }.

Record MergeQueueDiagnostic := mkMQ {
  awaitingMergeCount : nat; stuckInTestingCount : nat; stuckInMergingCount : nat;
  stuckTasks : list MergeQueueEntry }.

(** [10 * 60 * 1000] *)
Definition STUCK_MERGE_THRESHOLD_MS : Z := 10 * 60 * 1000.

Section Queue.
(** [task.updatedAt], a field of the core [Task] that the record above
    leaves out. *)
Variable updatedAt : Task -> option string.
(** [new Date(s).getTime()]; [None] is [NaN]. *)
Variable date_ms : string -> option Z.
(** [Date.now()] *)
Variable now : Z.

(** [meta?.mergeStatus || 'pending'] *)
Definition merge_status_of (task : Task) : string :=
  match orchestrator task with
  | Some meta => if truthy (mergeStatus meta) then Git.opt_or "" (mergeStatus meta) else "pending"
  | None => "pending"
  end.

(** [task.updatedAt ? new Date(task.updatedAt).getTime() : 0] *)
Definition updated_ms (task : Task) : option Z :=
  if truthy (updatedAt task) then date_ms (Git.opt_or "" (updatedAt task)) else Some 0%Z.

(** [timeSinceUpdate > STUCK_MERGE_THRESHOLD_MS]; a comparison with [NaN]
    is false. *)
Definition over_threshold (task : Task) : bool :=
  match updated_ms task with
  | Some u => Z.ltb STUCK_MERGE_THRESHOLD_MS (now - u)
  | None => false
  end.

(** The object pushed onto [stuckTasks]. *)
Definition mq_entry (task : Task) (mergeStatus : string) : MergeQueueEntry :=
  mkMQEntry (id task) (if String.eqb (title task) EmptyString then id task else title task)
            mergeStatus (if truthy (updatedAt task) then Git.opt_or "" (updatedAt task) else "").

(** The body of the [for] loop. *)
Definition mq_step (acc : MergeQueueDiagnostic) (task : Task) : MergeQueueDiagnostic :=
  let ms := merge_status_of task in
  let awaiting := if String.eqb ms "pending" then S (awaitingMergeCount acc)
                  else awaitingMergeCount acc in
  let over := over_threshold task in
  let '(testing, st1) :=
    if String.eqb ms "testing" && over
    then (S (stuckInTestingCount acc), stuckTasks acc ++ [mq_entry task ms])
    else (stuckInTestingCount acc, stuckTasks acc) in
  let '(merging, st2) :=
    if String.eqb ms "merging" && over
    then (S (stuckInMergingCount acc), st1 ++ [mq_entry task ms])
    else (stuckInMergingCount acc, st1) in
  mkMQ awaiting testing merging st2.

(** [collectMergeQueue]: [allTasks] is [services.api.list({ type: 'task' })]. *)
Definition collectMergeQueue (allTasks : list Task) : MergeQueueDiagnostic :=
  let reviewTasks := List.filter (fun t => status_eqb (status t) Review) allTasks in
  fold_left mq_step reviewTasks (mkMQ 0 0 0 []).

(** A task that [collectMergeQueue] lists as stuck. *)
Definition stuck_cond (t : Task) : Prop :=
  (merge_status_of t = "testing" \/ merge_status_of t = "merging") /\
  over_threshold t = true.
End Queue.

(** What the loop keeps after [n] tasks. *)
Definition queue_inv (n : nat) (acc : MergeQueueDiagnostic) : Prop :=
  length (stuckTasks acc) = stuckInTestingCount acc + stuckInMergingCount acc /\
  Forall (fun e => mq_mergeStatus e = "testing" \/ mq_mergeStatus e = "merging") (stuckTasks acc) /\
  awaitingMergeCount acc + stuckInTestingCount acc + stuckInMergingCount acc <= n.
End MergeQueue.

Module AgentPool.
Import Diagnostics.
Local Open Scope list_scope.

(** The part of an active session the route reads. *)
Record Session := mkSession {
  session_id : string; session_status : string; startedAt : option string }.

(** An agent entity; [agentRole] is [getAgentMetadata(agent)?.agentRole]. *)
Record Agent := mkAgent { agent_id : string; agent_name : string; agentRole : option string }.

Record SessionEntry := mkSessionEntry {
  se_agentId : string; se_agentName : string; se_role : string; se_sessionId : string;
  durationMs : option Z }.

Record AgentPoolDiagnostic := mkPool {
  totalAgents : nat; idleAgents : nat; busyAgents : nat; utilizationPercent : Z;
  sessions : list SessionEntry }.

Section Pool.
(** [services.sessionManager.getActiveSession] *)
Variable getActiveSession : string -> option Session.
(** [new Date(s).getTime()]; [None] is [NaN]. *)
Variable date_ms : string -> option Z.
(** [Date.now()] *)
Variable now : Z.
(** [Math.round((busyAgents / totalAgents) * 100)], a floating-point
    computation, for [totalAgents > 0]. *)
Variable round_percent : nat -> nat -> Z.

(** The object pushed onto [sessions]. *)
Definition session_entry (agent : Agent) (s : Session) : SessionEntry :=
  let started := if truthy (startedAt s) then date_ms (Git.opt_or "" (startedAt s)) else Some now in
  mkSessionEntry (agent_id agent)
                 (if String.eqb (agent_name agent) EmptyString then agent_id agent else agent_name agent)
                 (if truthy (agentRole agent) then Git.opt_or "" (agentRole agent) else "unknown")
                 (session_id s) (option_map (fun t => now - t)%Z started).

(** The body of the [for] loop, on [(busyAgents, idleAgents, sessions)]. *)
Definition pool_step (acc : nat * nat * list SessionEntry) (agent : Agent)
  : nat * nat * list SessionEntry :=
  let '(busy, idle, ss) := acc in
  match getActiveSession (agent_id agent) with
  | Some s =>
    if String.eqb (session_status s) "running"
    then (S busy, idle, ss ++ [session_entry agent s])
    else (busy, S idle, ss)
  | None => (busy, S idle, ss)
  end.

(** [collectAgentPool]: [agents] is [services.agentRegistry.listAgents()]. *)
Definition collectAgentPool (agents : list Agent) : AgentPoolDiagnostic :=
  let '(busy, idle, ss) := fold_left pool_step agents (0, 0, []) in
  let total := length agents in
  mkPool total idle busy (if Nat.ltb 0 total then round_percent busy total else 0%Z) ss.
End Pool.
End AgentPool.

(* ------------------------------------------------------------------ *)
(** ** The dispatch daemon's startup orphan recovery *)

Module Daemon.

(** A recovery pass: not yet launched, listing the orphaned tasks, working
    through the list it took, finished. *)
Inductive pass := NotStarted | Listing | Recovering (todo : list nat) | Finished.

(** The first poll cycle: not yet triggered, awaiting the startup latch,
    running its own recovery pass over the list it took, finished. *)
Inductive cycle := PollIdle | AwaitingLatch | PollRecovering (todo : list nat) | PollFinished.

(** [orphans]: tasks currently orphaned (in progress or in review, with an
    assigned agent and no live session); [effects]: the log of recovery
    side effects, one entry per recovered task. *)
Record state := mkState {
  orphans : list nat; effects : list nat; startup : pass; poll : cycle }.

(** The event-loop turns the two async flows can take, in any order. *)
Inductive action :=
| AStart | ATrigger | AStartupList | AStartupOne | AStartupDone
| ALatch | APollOne | APollDone.

(** Recovering one task: its side effect is applied and it stops being
    orphaned. *)
Definition recover (t : nat) (s : state) : state :=
  mkState (List.remove Nat.eq_dec t (orphans s)) (effects s ++ [t]) (startup s) (poll s).

(** Modelled from the spec: [start()] launches the orphan recovery in the
    background and returns at once; the startup recovery resolves the
    completion latch when it finishes; the first [runPollCycle()] (triggered
    once the daemon is started) awaits the latch, then runs its own
    recovery pass over the tasks that are orphaned at that point. *)
Definition step (a : action) (s : state) : option state :=
  match a, startup s, poll s with
  | AStart, NotStarted, _ => Some (mkState (orphans s) (effects s) Listing (poll s))
  | ATrigger, NotStarted, _ => None
  | ATrigger, _, PollIdle => Some (mkState (orphans s) (effects s) (startup s) AwaitingLatch)
  | AStartupList, Listing, _ =>
    Some (mkState (orphans s) (effects s) (Recovering (orphans s)) (poll s))
  | AStartupOne, Recovering (t :: todo), _ =>
    let s' := recover t s in Some (mkState (orphans s') (effects s') (Recovering todo) (poll s'))
  | AStartupDone, Recovering [], _ => Some (mkState (orphans s) (effects s) Finished (poll s))
  | ALatch, Finished, AwaitingLatch =>
    Some (mkState (orphans s) (effects s) (startup s) (PollRecovering (orphans s)))
  | APollOne, _, PollRecovering (t :: todo) =>
    let s' := recover t s in Some (mkState (orphans s') (effects s') (startup s') (PollRecovering todo))
  | APollDone, _, PollRecovering [] => Some (mkState (orphans s) (effects s) (startup s) PollFinished)
  | _, _, _ => None
  end.

(** Run a schedule of turns; [None] if some turn is not enabled. *)
Fixpoint run (sched : list action) (s : state) : option state :=
  match sched with
  | [] => Some s
  | a :: rest => match step a s with Some s' => run rest s' | None => None end
  end.

Definition initial (orph : list nat) : state := mkState orph [] NotStarted PollIdle.

(** The invariant of the interleavings: every task is either recovered
    (logged once in [effects]) or still orphaned; the startup pass works
    through the current orphans while the poll cycle is idle or waiting;
    once the startup pass is finished nothing is orphaned and the poll
    cycle's own pass has nothing to do. *)
Definition inv (orph : list nat) (s : state) : Prop :=
  Permutation (effects s ++ orphans s) orph /\
  match startup s with
  | NotStarted => effects s = [] /\ poll s = PollIdle
  | Listing => effects s = [] /\ (poll s = PollIdle \/ poll s = AwaitingLatch)
  | Recovering td => orphans s = td /\ (poll s = PollIdle \/ poll s = AwaitingLatch)
  | Finished => orphans s = [] /\ (forall td, poll s = PollRecovering td -> td = [])
  end.

End Daemon.

(* ------------------------------------------------------------------ *)
(** ** Repository states for branch detection *)

Module BranchOrder.
Import JsString Git.

(** What [detectTargetBranch] can observe of a repository: whether an
    [origin] remote is configured, the output of
    [git symbolic-ref refs/remotes/origin/HEAD] (if the ref exists), and the
    refs [git rev-parse --verify] accepts. *)
Record RepoState := mkRepo {
  has_origin : bool; origin_head : option string; verifiable : list string }.

Definition git_failure (msg : string) : exec_result :=
  Fail (mkErr (Some "") (Some msg) (Some ("Command failed: " ++ msg))).

(** The answers git gives in such a repository. *)
Definition repo_oracle (st : RepoState) (_ : trace) (c : call) : exec_result :=
  match c_cmd c with
  | RemoteGetUrl r =>
    if String.eqb r "origin" && has_origin st then Ok "git@example.com:repo.git
" else git_failure "error: No such remote"
  | SymbolicRefOriginHead =>
    match origin_head st with
    | Some out => Ok out
    | None => git_failure "fatal: ref refs/remotes/origin/HEAD is not a symbolic ref"
    end
  | RevParseVerify r =>
    if existsb (String.eqb r) (verifiable st) then Ok "0123abcd
" else git_failure "fatal: Needed a single revision"
  | _ => Ok ""
  end.

Definition verifies (st : RepoState) (r : string) : bool := existsb (String.eqb r) (verifiable st).

Definition symref_branch (st : RepoState) : option string :=
  match origin_head st with
  | Some out => match_prefix_line "refs/remotes/origin/" (trim out)
  | None => None
  end.

(** The order the claim states: configured base branch, remote symbolic-ref,
    origin/main, origin/master, local main, local master, ["main"]. *)
Definition detect_claimed (config : option string) (st : RepoState) : string :=
  match config with
  | Some b => b
  | None =>
    match symref_branch st with
    | Some b => b
    | None =>
      if verifies st "origin/main" then "main"
      else if verifies st "origin/master" then "master"
      else if verifies st "refs/heads/main" then "main"
      else if verifies st "refs/heads/master" then "master"
      else "main"
    end
  end.

(** The order of the function's doc comment: the remote probes only when an
    [origin] remote is configured, then local main, local master, ["main"]. *)
Definition detect_documented (st : RepoState) : string :=
  let remote :=
    if has_origin st then
      match symref_branch st with
      | Some b => Some b
      | None =>
        if verifies st "origin/main" then Some "main"
        else if verifies st "origin/master" then Some "master"
        else None
      end
    else None in
  match remote with
  | Some b => b
  | None =>
    if verifies st "refs/heads/main" then "main"
    else if verifies st "refs/heads/master" then "master"
    else "main"
  end.

End BranchOrder.

(* ------------------------------------------------------------------ *)
(** ** Concrete runs *)

Module Scenarios.
Import Git.

Definition root := "/repo".

(** A repository with an [origin] remote whose [HEAD] is [main], a clean
    merge, and the main checkout on branch [main]. *)
Definition clean_repo (_ : trace) (c : call) : exec_result :=
  match c_cmd c with
  | SymbolicRefOriginHead => Ok "refs/remotes/origin/main
"
  | MergeBase _ _ => Ok "abc
"
  | MergeTree _ _ _ => Ok "clean"
  | RevParseHead => Ok "deadbeef
"
  | SymbolicRefShortHead => Ok "main
"
  | _ => Ok ""
  end.

(** As [clean_repo], but the dry run reports a conflict. *)
Definition conflicting_repo (tr : trace) (c : call) : exec_result :=
  match c_cmd c with
  | MergeTree _ _ _ => Ok "changed in both
+++ b/src/app.ts
<<<<<<< .our
"
  | _ => clean_repo tr c
  end.

(** As [clean_repo], but the remote cannot be reached. *)
Definition unreachable_remote (tr : trace) (c : call) : exec_result :=
  match c_cmd c with
  | FetchOrigin => Fail (mkErr (Some "") (Some "fatal: unable to access remote")
                              (Some "Command failed: git fetch origin"))
  | _ => clean_repo tr c
  end.

Definition no_leftover (_ : string) : bool := false.
Definition clock : N := 1700000000123.
Definition cwd := "/".

Definition defaults (src : string) : MergeBranchOptions :=
  mkOptions root src None None None None None None None.

Definition no_push (src : string) : MergeBranchOptions :=
  mkOptions root src None None (Some false) None None None None.

End Scenarios.

Module PushScenario.
Import Git.
(** As [Scenarios.clean_repo], but the remote rejects the push. *)
Definition push_rejected (tr : trace) (c : call) : exec_result :=
  match c_cmd c with
  | Push _ => Fail (mkErr None (Some "! [rejected] HEAD -> main (fetch first)")
                          (Some "Command failed: git push origin HEAD:main"))
  | _ => Scenarios.clean_repo tr c
  end.
End PushScenario.

(* ------------------------------------------------------------------ *)
(** ** Trace predicates *)

Module TraceProps.
Import Git.

(** The commands [mergeBranch] runs through [execGitSafe] (the merge phase). *)
Definition worktree_cmd (c : gitcmd) : bool :=
  match c with
  | MergeSquash _ | Commit _ | RevParseHead | MergeNoFF _ _ | Push _ | ResetHard
  | MergeAbort => true
  | _ => false
  end.

(** The commands of [hasRemote] and [detectTargetBranch]. *)
Definition detect_cmd (c : gitcmd) : bool :=
  match c with
  | RemoteGetUrl _ | SymbolicRefOriginHead | RevParseVerify _ => true
  | _ => false
  end.

(** The commands of the two local-sync functions. *)
Definition sync_cmd (c : gitcmd) : bool :=
  match c with
  | SymbolicRefShortHead | MergeFFOnly _ | FetchRefspec _ | BranchForce _ _ => true
  | _ => false
  end.

Definition is_worktree_add (c : gitcmd) : bool :=
  match c with WorktreeAdd _ _ => true | _ => false end.

Definition is_merge_tree (c : gitcmd) : bool :=
  match c with MergeTree _ _ _ => true | _ => false end.

(** The commands [mergeBranch] runs with the workspace root as [cwd]:
    branch detection, [git fetch origin], the dry run, the worktree
    add/remove of the temporary directory [dir], and the local sync. *)
Definition root_call (dir : string) (c : gitcmd) : Prop :=
  detect_cmd c = true \/ sync_cmd c = true \/ c = FetchOrigin \/
  (exists r s, c = MergeBase r s) \/ (exists b r s, c = MergeTree b r s) \/
  (exists r, c = WorktreeAdd dir r) \/ c = WorktreeRemove dir.

(** The [stdout] the dry run of step 2 reads: of the resolved value, or of
    the rejection ([.catch((e) => e)]). *)
Definition dry_run_stdout (r : exec_result) : option string :=
  match r with Ok out => Some out | Fail e => e_stdout e end.

(** Every call a computation appends satisfies [P]. *)
Definition keeps (P : call -> Prop) {A} (m : M A) : Prop :=
  forall tr, Forall P tr -> Forall P (snd (m tr)).

(** A computation that never throws. *)
Definition nothrow {A} (m : M A) : Prop :=
  forall tr, exists a tr', m tr = (inl a, tr').

(** A computation whose throws are exactly the rejection of its last
    invocation, an invocation satisfying [Q]. *)
Definition throws_only (oracle : trace -> call -> exec_result) (Q : call -> Prop) {A}
  (m : M A) : Prop :=
  forall tr e tr', m tr = (inr e, tr') ->
    exists pre c, tr' = (pre ++ [c])%list /\ oracle pre c = Fail e /\ Q c.

(** A computation that only appends to the trace. *)
Definition grows {A} (m : M A) : Prop := forall tr, exists d, snd (m tr) = (tr ++ d)%list.

(** The options [o] with [syncLocal: false]. *)
Definition without_sync (o : MergeBranchOptions) : MergeBranchOptions :=
  mkOptions (workspaceRoot o) (sourceBranch o) (targetBranch o) (mergeStrategy o) (autoPush o)
            (commitMessage o) (preflight o) (Some false) (localOnly o).

(** Every value [m] returns satisfies [Q]. *)
Definition yields {A} (Q : A -> Prop) (m : M A) : Prop :=
  forall tr a tr', m tr = (inl a, tr') -> Q a.

(** Two computations that behave the same from every trace. *)
Definition agree {A} (m1 m2 : M A) : Prop := forall tr, m1 tr = m2 tr.

(** The commands that talk to the remote. *)
Definition remote_cmd (c : gitcmd) : bool :=
  match c with FetchOrigin | Push _ | FetchRefspec _ => true | _ => false end.

Definition is_push (c : gitcmd) : bool :=
  match c with Push _ => true | _ => false end.

(** The merge-phase commands [mergeBranch] can issue with strategy
    [strat], [autoPush] = [push] and local-only mode [lo]. *)
Definition body_cmd (strat : strategy) (push lo : bool) (c : gitcmd) : bool :=
  match c, strat with
  | MergeSquash _, Squash | Commit _, Squash | ResetHard, Squash => true
  | MergeNoFF _ _, MergeNoFFStrategy | MergeAbort, MergeNoFFStrategy => true
  | RevParseHead, _ => true
  | Push _, _ => push && negb lo
  | _, _ => false
  end.

(** The local-sync commands step 8 can issue. *)
Definition sync_issued (sync lo push : bool) (c : gitcmd) : bool :=
  sync && (lo || push) &&
  match c with
  | SymbolicRefShortHead | MergeFFOnly _ => true
  | FetchRefspec _ => negb lo
  | BranchForce _ _ => lo
  | _ => false
  end.

(** The shape of every [MergeBranchResult] [mergeBranch] returns: a
    success carries a commit hash and nothing else; a failure carries no
    hash, a non-empty error message, and a [conflictFiles] list only with
    [hasConflict], and then non-empty and without empty names. *)
Definition well_formed (r : MergeBranchResult) : Prop :=
  if success r
  then commitHash r <> None /\ hasConflict r = false /\ error r = None /\
       conflictFiles r = None
  else commitHash r = None /\ (exists m, error r = Some m /\ m <> EmptyString) /\
       (forall fs, conflictFiles r = Some fs ->
          hasConflict r = true /\ fs <> [] /\ Forall (fun f => f <> EmptyString) fs).

(** A computation that only appends calls satisfying [P]. *)
Definition appends (P : call -> Prop) {A} (m : M A) : Prop :=
  forall tr, exists d, snd (m tr) = (tr ++ d)%list /\ Forall P d.

(** A probe of [hasRemote] or [detectTargetBranch] in [root]. *)
Definition probe (root : string) (c : call) : Prop :=
  detect_cmd (c_cmd c) = true /\ c_cwd c = root /\ c_safe c = false.

(** A detected branch name: non-empty, on one line. *)
Definition line_name (o : option string) : Prop :=
  match o with Some b => b <> EmptyString /\ JsString.take_line b = b | None => True end.

(** A full match of the [CONFLICT] regular expression. *)
Definition conflict_shape (m : string) : Prop :=
  exists inside cap,
    m = (conflict_head ++ inside ++ "): Merge conflict " ++ "in " ++ cap)%string /\
    cap <> EmptyString /\ JsString.take_line cap = cap.

(** The segments [path.resolve] normalises for [root]. *)
Definition base_segs (cwd root : string) : list string :=
  ((if NodePath.is_absolute root then [] else NodePath.split cwd) ++ NodePath.split root)%list.

(** The characters of a temporary worktree name. *)
Definition name_char (c : ascii) : Prop := JsString.is_alnum_dash c = true \/ c = "_"%char.

End TraceProps.

(* ================================================================== *)
(** * Proofs *)

(** stdpp makes [String.append] opaque to [simpl]; the proofs below compute
    with it. *)
Arguments String.append : simpl nomatch.

(** ** Combinator lemmas for the git runner *)

Module MonadFacts.
Import Git TraceProps.
Local Open Scope list_scope.

Section Combinators.
Variable oracle : trace -> call -> exec_result.
Variable process_cwd : string.
Variable P : call -> Prop.

Lemma keeps_ret {A} (a : A) : keeps P (ret a).
Proof. intros tr H. exact H. Qed.

Lemma keeps_throw {A} e : keeps P (@throw A e).
Proof. intros tr H. exact H. Qed.

Lemma keeps_bind {A B} (m : M A) (k : A -> M B) :
  keeps P m -> (forall a, keeps P (k a)) -> keeps P (bind m k).
Proof.
  intros Hm Hk tr Htr. unfold bind.
  specialize (Hm tr Htr). destruct (m tr) as [[a|e] tr'] eqn:E; simpl in *.
  - apply Hk. exact Hm.
  - exact Hm.
Qed.

Lemma keeps_catch {A} (m : M A) h :
  keeps P m -> (forall e, keeps P (h e)) -> keeps P (catch m h).
Proof.
  intros Hm Hh tr Htr. unfold catch.
  specialize (Hm tr Htr). destruct (m tr) as [[a|e] tr'] eqn:E; simpl in *.
  - exact Hm.
  - apply Hh. exact Hm.
Qed.

Lemma keeps_finally {A} (m : M A) f :
  keeps P m -> keeps P f -> keeps P (finally m f).
Proof.
  intros Hm Hf tr Htr. unfold finally.
  specialize (Hm tr Htr). destruct (m tr) as [r tr1] eqn:E; simpl in *.
  specialize (Hf tr1 Hm). destruct (f tr1) as [[u|e] tr2]; exact Hf.
Qed.

Lemma keeps_run c : P c -> keeps P (run oracle c).
Proof.
  intros Hc tr Htr. unfold run.
  destruct (oracle tr c); simpl; apply Forall_app; auto.
Qed.

Lemma keeps_execAsync c cwd : P (mkCall c cwd false) -> keeps P (execAsync oracle c cwd).
Proof. apply keeps_run. Qed.

Lemma keeps_execGitSafe c dir root :
  (NodePath.resolve process_cwd dir <> NodePath.resolve process_cwd root ->
   P (mkCall c dir true)) ->
  keeps P (execGitSafe oracle process_cwd c dir root).
Proof.
  intros Hc. unfold execGitSafe.
  destruct (String.eqb_spec (NodePath.resolve process_cwd dir)
                            (NodePath.resolve process_cwd root)).
  - apply keeps_throw.
  - apply keeps_run. auto.
Qed.

Lemma nothrow_ret {A} (a : A) : nothrow (ret a).
Proof. intros tr. eauto. Qed.

Lemma nothrow_bind {A B} (m : M A) (k : A -> M B) :
  nothrow m -> (forall a, nothrow (k a)) -> nothrow (bind m k).
Proof.
  intros Hm Hk tr. unfold bind.
  destruct (Hm tr) as (a & tr' & ->). apply Hk.
Qed.

Lemma nothrow_catch {A} (m : M A) h :
  (forall e, nothrow (h e)) -> nothrow (catch m h).
Proof.
  intros Hh tr. unfold catch.
  destruct (m tr) as [[a|e] tr'] eqn:E; [eauto | apply Hh].
Qed.

Lemma nothrow_finally {A} (m : M A) f :
  nothrow m -> nothrow f -> nothrow (finally m f).
Proof.
  intros Hm Hf tr. unfold finally.
  destruct (Hm tr) as (a & tr1 & ->). destruct (Hf tr1) as (u & tr2 & ->). eauto.
Qed.

Variable Q : call -> Prop.

Lemma throws_only_nothrow {A} (m : M A) : nothrow m -> throws_only oracle Q m.
Proof.
  intros Hm tr e tr' E. destruct (Hm tr) as (a & tr1 & E'). congruence.
Qed.

Lemma throws_only_run c : Q c -> throws_only oracle Q (run oracle c).
Proof.
  intros Hc tr e tr' E. unfold run in E.
  destruct (oracle tr c) eqn:O; inversion E; subst. eauto.
Qed.

Lemma throws_only_bind {A B} (m : M A) (k : A -> M B) :
  throws_only oracle Q m -> (forall a, throws_only oracle Q (k a)) ->
  throws_only oracle Q (bind m k).
Proof.
  intros Hm Hk tr e tr' E. unfold bind in E.
  destruct (m tr) as [[a|e'] tr1] eqn:Em.
  - eapply Hk. exact E.
  - inversion E; subst. eapply Hm. exact Em.
Qed.

Lemma throws_only_catch {A} (m : M A) h :
  (forall e, throws_only oracle Q (h e)) -> throws_only oracle Q (catch m h).
Proof.
  intros Hh tr e tr' E. unfold catch in E.
  destruct (m tr) as [[a|e'] tr1] eqn:Em.
  - inversion E.
  - eapply Hh. exact E.
Qed.

End Combinators.
End MonadFacts.

(** ** Which commands [mergeBranch] runs, and where *)

Module GitTrace.
Import Git TraceProps MonadFacts.
Local Open Scope list_scope.

Ltac keeps_step :=
  lazymatch goal with
  | |- keeps _ (let _ := _ in _) => cbv zeta
  | |- keeps _ (bind _ _) => apply keeps_bind; [ | intros ? ]
  | |- keeps _ (catch _ _) => apply keeps_catch; [ | intros ? ]
  | |- keeps _ (finally _ _) => apply keeps_finally
  | |- keeps _ (ret _) => apply keeps_ret
  | |- keeps _ (throw _) => apply keeps_throw
  | |- keeps _ (execAsync _ _ _) => apply keeps_execAsync
  | |- keeps _ (execGitSafe _ _ _ _ _) => apply keeps_execGitSafe; intro
  | |- keeps _ (if ?b then _ else _) => destruct b
  | |- keeps _ (match ?x with _ => _ end) => destruct x
  end.

Section Keeps.
Variable oracle : trace -> call -> exec_result.
Variable exists_sync : string -> bool.
Variable date_now : N.
Variable process_cwd : string.
Variable P : call -> Prop.

Lemma keeps_hasRemote root n :
  P (mkCall (RemoteGetUrl n) root false) -> keeps P (hasRemote oracle root n).
Proof. intros H. unfold hasRemote. repeat keeps_step. exact H. Qed.

Lemma keeps_detectTargetBranch root :
  (forall c, detect_cmd c = true -> P (mkCall c root false)) ->
  keeps P (detectTargetBranch oracle root).
Proof.
  intros H. unfold detectTargetBranch, hasRemote, or_else, try_origin_head, try_verify, attempt.
  simpl try_local. unfold or_else, try_verify, attempt.
  repeat keeps_step; apply H; reflexivity.
Qed.

Lemma keeps_prefix root lo tgt :
  (forall c, detect_cmd c = true -> P (mkCall c root false)) ->
  keeps P (match lo with
           | Some b => ret b
           | None => r <- hasRemote oracle root "origin" ;; ret (negb r)
           end) /\
  keeps P (match tgt with
           | Some t => ret t
           | None => detectTargetBranch oracle root
           end).
Proof.
  intros H. split.
  - destruct lo; repeat keeps_step. apply keeps_hasRemote. apply H. reflexivity.
  - destruct tgt; repeat keeps_step. apply keeps_detectTargetBranch. exact H.
Qed.

Lemma keeps_sync_step r sync lo push root target :
  (forall c, sync_cmd c = true -> P (mkCall c root false)) ->
  keeps P (sync_step oracle r sync lo push root target).
Proof.
  intros H. unfold sync_step, syncLocalBranchFromCommit, syncLocalBranch, current_branch.
  repeat keeps_step; apply H; reflexivity.
Qed.

Lemma keeps_mergeBranch o :
  let root := workspaceRoot o in
  let dir := merge_dir date_now root (sourceBranch o) in
  (forall c, detect_cmd c = true -> P (mkCall c root false)) ->
  (forall c, sync_cmd c = true -> P (mkCall c root false)) ->
  P (mkCall FetchOrigin root false) ->
  (forall r s, P (mkCall (MergeBase r s) root false)) ->
  (forall b r s, P (mkCall (MergeTree b r s) root false)) ->
  (forall r, P (mkCall (WorktreeAdd dir r) root false)) ->
  P (mkCall (WorktreeRemove dir) root false) ->
  (forall c, worktree_cmd c = true ->
     NodePath.resolve process_cwd dir <> NodePath.resolve process_cwd root ->
     P (mkCall c dir true)) ->
  keeps P (mergeBranch oracle exists_sync date_now process_cwd o).
Proof.
  intros root dir Hd Hs Hf Hmb Hmt Ha Hr Hw.
  unfold mergeBranch. cbv zeta.
  destruct (keeps_prefix (workspaceRoot o) (localOnly o) (targetBranch o) Hd) as [H1 H2].
  apply keeps_bind; [exact H1 | intros lo].
  apply keeps_bind; [exact H2 | intros target].
  unfold preflight_check, worktree_phase, after_worktree_add, merge_body, merge_catch.
  repeat keeps_step; auto;
    try (apply Hw; [reflexivity | assumption]);
    try (apply keeps_sync_step; exact Hs).
Qed.

End Keeps.
End GitTrace.

(** ** The temporary worktree never resolves to the workspace root *)

Module PathFacts.
Import JsString NodePath.
Local Open Scope list_scope.

Lemma str_app_assoc (a b c : string) : ((a ++ b) ++ c)%string = (a ++ (b ++ c))%string.
Proof. induction a; simpl; congruence. Qed.

Lemma str_length_app (a b : string) :
  String.length (a ++ b)%string = String.length a + String.length b.
Proof. induction a; simpl; congruence. Qed.

Lemma list_ascii_app (a b : string) :
  list_ascii_of_string (a ++ b)%string = list_ascii_of_string a ++ list_ascii_of_string b.
Proof. induction a; simpl; congruence. Qed.

Lemma split_cons s : exists h t, split s = h :: t.
Proof.
  destruct s as [|c s']; simpl; [eauto|].
  destruct (Ascii.eqb c slash); [eauto|].
  destruct (split s'); eauto.
Qed.

Lemma split_app_slash (a b : string) :
  split (a ++ String slash b)%string = split a ++ split b.
Proof.
  induction a as [|c a IH]; simpl.
  - reflexivity.
  - rewrite IH. destruct (Ascii.eqb c slash); [reflexivity|].
    destruct (split_cons a) as (h & t & ->). reflexivity.
Qed.

Lemma split_no_slash (s : string) : no_slash s -> split s = [s].
Proof.
  unfold no_slash. induction s as [|c s IH]; simpl; intros H; [reflexivity|].
  inversion H as [|? ? Hc Hs]; subst.
  destruct (Ascii.eqb_spec c slash); [contradiction|].
  rewrite (IH Hs). reflexivity.
Qed.

Lemma no_slash_app (a b : string) : no_slash a -> no_slash b -> no_slash (a ++ b)%string.
Proof. unfold no_slash. rewrite list_ascii_app. apply Forall_app_2. Qed.

Lemma no_slash_safe_name s : no_slash (safe_name s).
Proof.
  unfold no_slash. induction s as [|c s IH]; simpl; constructor; auto.
  destruct (is_alnum_dash c) eqn:E.
  - intros ->. discriminate E.
  - discriminate.
Qed.

Lemma digit_not_slash n : ascii_of_N (48 + N.modulo n 10) <> slash.
Proof.
  intros H. assert (Hlt : (N.modulo n 10 < 10)%N) by (apply N.mod_lt; discriminate).
  apply (f_equal N_of_ascii) in H. rewrite Ascii.N_ascii_embedding in H by lia.
  unfold slash in H. change (N_of_ascii "/"%char) with 47%N in H.
  revert H. generalize (N.modulo n 10). intros k Hk. lia.
Qed.

Lemma no_slash_digits fuel n acc : no_slash acc -> no_slash (digits_aux fuel n acc).
Proof.
  revert n acc. induction fuel as [|f IH]; simpl; intros n acc H; [exact H|].
  assert (H' : no_slash (String (ascii_of_N (48 + N.modulo n 10)) acc)).
  { unfold no_slash. simpl. constructor; [apply digit_not_slash | exact H]. }
  destruct (N.ltb n 10); [exact H' | apply IH; exact H'].
Qed.

Lemma no_slash_N_to_string n : no_slash (N_to_string n).
Proof. apply no_slash_digits. constructor. Qed.

Lemma fold_norm_plain ys st :
  Forall plain ys -> fold_left norm_step ys st = rev ys ++ st.
Proof.
  revert st. induction ys as [|y ys IH]; simpl; intros st H; [reflexivity|].
  inversion H as [|? ? (H1 & H2 & H3) Hys]; subst.
  unfold norm_step at 2.
  destruct (String.eqb_spec y EmptyString); [contradiction|].
  destruct (String.eqb_spec y "."); [contradiction|].
  destruct (String.eqb_spec y ".."); [contradiction|]. simpl.
  rewrite IH by exact Hys. rewrite <- app_assoc. reflexivity.
Qed.

Lemma normalize_app_plain xs ys :
  Forall plain ys -> normalize (xs ++ ys) = normalize xs ++ ys.
Proof.
  intros H. unfold normalize. rewrite fold_left_app, fold_norm_plain by exact H.
  rewrite rev_app_distr, rev_involutive. reflexivity.
Qed.

Lemma normalize_app_empty xs : normalize (xs ++ [EmptyString]) = normalize xs.
Proof. unfold normalize. rewrite fold_left_app. reflexivity. Qed.

Lemma render_segs_length_app xs ys :
  String.length (render_segs (xs ++ ys)) =
  String.length (render_segs xs) + String.length (render_segs ys).
Proof.
  induction xs as [|x xs IH]; simpl; [reflexivity|].
  rewrite !str_length_app, IH. lia.
Qed.

Lemma render_extend_neq xs y ys :
  y <> EmptyString -> render (xs ++ y :: ys) <> render xs.
Proof.
  intros Hy Heq. apply (f_equal String.length) in Heq.
  assert (Hlen : 2 <= String.length (render_segs (y :: ys))).
  { simpl. rewrite str_length_app. destruct y; [contradiction|]. simpl. lia. }
  destruct xs as [|x xs].
  - simpl app in Heq. unfold render in Heq. simpl in Heq. simpl in Hlen. lia.
  - unfold render in Heq.
    change (String.length (render_segs ((x :: xs) ++ y :: ys)) =
            String.length (render_segs (x :: xs))) in Heq.
    rewrite render_segs_length_app in Heq. lia.
Qed.

Lemma is_absolute_app (a b : string) : a <> EmptyString -> is_absolute (a ++ b)%string = is_absolute a.
Proof. destruct a; [contradiction|]. reflexivity. Qed.

Lemma merge_dir_name_plain now src : plain (Git.merge_dir_name now src).
Proof. unfold Git.merge_dir_name. split; [|split]; simpl; intros H; inversion H. Qed.

Lemma merge_dir_name_no_slash now src : no_slash (Git.merge_dir_name now src).
Proof.
  unfold Git.merge_dir_name.
  change ("_merge-" ++ safe_name src ++ "-" ++ N_to_string now)%string with
    ("_merge-" ++ (safe_name src ++ ("-" ++ N_to_string now)))%string.
  apply no_slash_app; [|apply no_slash_app; [apply no_slash_safe_name|apply no_slash_app]].
  - unfold no_slash. simpl. repeat constructor; discriminate.
  - unfold no_slash. simpl. repeat constructor; discriminate.
  - apply no_slash_N_to_string.
Qed.

Lemma join3_empty_root n :
  n <> EmptyString -> join3 EmptyString wt_base n = (wt_base ++ String slash n)%string.
Proof.
  intros Hn. unfold join3. cbn [List.filter].
  replace (String.eqb n EmptyString) with false by (symmetry; apply String.eqb_neq; exact Hn).
  reflexivity.
Qed.

Lemma join3_root root n :
  root <> EmptyString -> n <> EmptyString ->
  join3 root wt_base n = ((root ++ String slash wt_base) ++ String slash n)%string.
Proof.
  intros Hr Hn. unfold join3. cbn [List.filter].
  replace (String.eqb n EmptyString) with false by (symmetry; apply String.eqb_neq; exact Hn).
  replace (String.eqb root EmptyString) with false by (symmetry; apply String.eqb_neq; exact Hr).
  reflexivity.
Qed.

Lemma split_wt_base : split wt_base = [".stoneforge"; ".worktrees"].
Proof. reflexivity. Qed.

(** The temporary merge directory resolves strictly below the workspace
    root, whatever the root, the branch name, the clock and the process
    working directory. *)
Lemma merge_dir_resolve_neq now root src cwd :
  resolve cwd (Git.merge_dir now root src) <> resolve cwd root.
Proof.
  set (n := Git.merge_dir_name now src).
  assert (Hn : split n = [n]) by apply split_no_slash, merge_dir_name_no_slash.
  assert (Hp : Forall plain [".stoneforge"; ".worktrees"; n]).
  { repeat constructor; try apply merge_dir_name_plain;
      unfold plain; repeat split; discriminate. }
  assert (Hne : n <> EmptyString) by apply merge_dir_name_plain.
  unfold Git.merge_dir. fold n. fold wt_base.
  destruct (String.eqb_spec root EmptyString) as [->|Hr].
  - rewrite join3_empty_root by exact Hne. unfold resolve.
    replace (is_absolute (wt_base ++ String slash n)) with false by reflexivity.
    replace (is_absolute EmptyString) with false by reflexivity.
    rewrite split_app_slash, Hn, split_wt_base.
    change (split EmptyString) with [EmptyString]. rewrite normalize_app_empty.
    change ([".stoneforge"; ".worktrees"] ++ [n]) with [".stoneforge"; ".worktrees"; n].
    rewrite normalize_app_plain by exact Hp.
    apply render_extend_neq. discriminate.
  - rewrite join3_root by assumption. unfold resolve.
    rewrite str_app_assoc, is_absolute_app by exact Hr.
    rewrite <- str_app_assoc.
    rewrite split_app_slash, split_app_slash, Hn, split_wt_base.
    rewrite <- !app_assoc.
    change ([".stoneforge"; ".worktrees"] ++ [n]) with [".stoneforge"; ".worktrees"; n].
    rewrite app_assoc, normalize_app_plain by exact Hp.
    apply render_extend_neq. discriminate.
Qed.

End PathFacts.

(* ------------------------------------------------------------------ *)
(** ** Where [mergeBranch] runs its commands *)

Module Isolation.
Import Git TraceProps MonadFacts GitTrace PathFacts.

(** C1 (corrected): the merge-phase commands (merge, commit, rev-parse,
    push, reset, abort) all go through [execGitSafe] with the temporary
    worktree as [cwd], and the resolved path of that worktree never equals
    the resolved workspace root; [execGitSafe] throws without running
    anything when the two resolved paths are equal.  Every other command
    runs with the workspace root as [cwd]: the branch detection,
    [git fetch origin], the dry run, the worktree add/remove of the
    temporary directory, and the local sync ([merge --ff-only],
    [fetch origin t:t], [branch -f]), which mutate the main checkout. *)
Theorem mergeBranch_cwd_discipline oracle exists_sync date_now process_cwd o :
  let root := workspaceRoot o in
  let dir := merge_dir date_now root (sourceBranch o) in
  Forall (fun c =>
      (c_safe c = true /\ c_cwd c = dir /\ worktree_cmd (c_cmd c) = true) \/
      (c_safe c = false /\ c_cwd c = root /\ root_call dir (c_cmd c)))
    (snd (mergeBranch oracle exists_sync date_now process_cwd o [])) /\
  NodePath.resolve process_cwd dir <> NodePath.resolve process_cwd root /\
  (forall c d r tr,
     NodePath.resolve process_cwd d = NodePath.resolve process_cwd r ->
     exists e, execGitSafe oracle process_cwd c d r tr = (inr e, tr)).
Proof.
  intros root dir. split; [|split].
  - assert (HK := keeps_mergeBranch oracle exists_sync date_now process_cwd
      (fun c => (c_safe c = true /\ c_cwd c = dir /\ worktree_cmd (c_cmd c) = true) \/
                (c_safe c = false /\ c_cwd c = root /\ root_call dir (c_cmd c))) o).
    cbv zeta in HK. apply HK; clear HK; cbn [c_safe c_cwd c_cmd].
    + intros c Hc. right. repeat split. left. exact Hc.
    + intros c Hc. right. repeat split. right; left. exact Hc.
    + right. repeat split. do 2 right; left. reflexivity.
    + intros r s. right. repeat split. do 3 right; left. eauto.
    + intros b r s. right. repeat split. do 4 right; left. eauto.
    + intros r. right. repeat split. do 5 right; left. eauto.
    + right. repeat split. do 6 right. reflexivity.
    + intros c Hc _. left. repeat split. exact Hc.
    + constructor.
  - apply merge_dir_resolve_neq.
  - intros c d r tr H. unfold execGitSafe. rewrite H, String.eqb_refl. eexists. reflexivity.
Qed.

(** C1 counterexample: in a repository with an [origin] remote whose main
    checkout is on the target branch, a merge with the default options
    succeeds and then runs the mutating [git merge --ff-only origin/main]
    with the workspace root as [cwd]. *)
Lemma mergeBranch_ff_in_root :
  fst (mergeBranch Scenarios.clean_repo Scenarios.no_leftover Scenarios.clock Scenarios.cwd
         (Scenarios.defaults "feature/x") [])
    = inl (mkResult true (Some "deadbeef") false None None) /\
  In (mkCall (MergeFFOnly "origin/main") Scenarios.root false)
     (snd (mergeBranch Scenarios.clean_repo Scenarios.no_leftover Scenarios.clock Scenarios.cwd
             (Scenarios.defaults "feature/x") [])) /\
  is_mutating (MergeFFOnly "origin/main") = true.
Proof.
  split; [vm_compute; reflexivity|split; [|reflexivity]].
  vm_compute. repeat (first [left; reflexivity | right]).
Qed.

End Isolation.

(* ------------------------------------------------------------------ *)
(** ** The fallback order of [detectTargetBranch] *)

Module Detection.
Import JsString Git BranchOrder.

(** C2 (corrected): [detectTargetBranch] reads no configured base branch
    (the caller's [targetBranch] option, when given, bypasses it); it runs
    the remote probes (symbolic-ref of [origin/HEAD], [origin/main],
    [origin/master]) only when an [origin] remote is configured, then
    tries local [main], local [master], and falls back to ["main"]; it
    never throws, in every repository state. *)
Theorem detectTargetBranch_order (st : RepoState) root tr :
  fst (detectTargetBranch (repo_oracle st) root tr) = inl (detect_documented st).
Proof.
  unfold detectTargetBranch, detect_documented, hasRemote, or_else, try_origin_head,
    try_verify, attempt, symref_branch, verifies.
  simpl try_local. unfold or_else, try_verify, attempt.
  unfold bind, catch, execAsync, run, ret, repo_oracle; cbn [c_cmd].
  destruct (existsb (String.eqb "origin/main") (verifiable st)) eqn:E1;
  destruct (existsb (String.eqb "origin/master") (verifiable st)) eqn:E2;
  destruct (existsb (String.eqb "refs/heads/main") (verifiable st)) eqn:E3;
  destruct (existsb (String.eqb "refs/heads/master") (verifiable st)) eqn:E4;
  destruct (has_origin st); destruct (origin_head st) as [out|];
  try destruct (match_prefix_line "refs/remotes/origin/" (trim out));
  simpl; rewrite ?E1, ?E2, ?E3, ?E4; reflexivity.
Qed.

(** C2 counterexample: a repository without an [origin] remote that still
    has a stale [origin/main] ref and a local [master]: the claimed order
    gives ["main"] (the [origin/main] step), the function ["master"]. *)
Lemma detectTargetBranch_skips_stale_origin :
  let st := mkRepo false None ["origin/main"; "refs/heads/master"] in
  fst (detectTargetBranch (repo_oracle st) "/repo" []) = inl "master" /\
  detect_claimed None st = "main".
Proof. split; vm_compute; reflexivity. Qed.

End Detection.

(* ------------------------------------------------------------------ *)
(** ** The rate-limit tracker *)

Module RateLimitFacts.
Import RateLimit.

Lemma expireStale_lookup n m e :
  expireStale n m !! e =
  match m !! e with
  | Some en => if Z.leb (resetsAt en) n then None else Some en
  | None => None
  end.
Proof.
  unfold expireStale. rewrite map_lookup_filter. destruct (m !! e) as [en|]; simpl; [|reflexivity].
  destruct (Z.leb_spec (resetsAt en) n); simpl.
  - rewrite option_guard_False by (simpl; lia). reflexivity.
  - rewrite option_guard_True by (simpl; lia). reflexivity.
Qed.

Lemma effective_reset_alt n m e :
  effective_reset n m e =
  match option_map resetsAt (m !! e) with
  | Some r => if Z.ltb n r then Some r else None
  | None => None
  end.
Proof.
  unfold effective_reset. rewrite expireStale_lookup.
  destruct (m !! e) as [en|]; simpl; [|reflexivity].
  destruct (Z.leb_spec (resetsAt en) n); destruct (Z.ltb_spec n (resetsAt en));
    simpl; try reflexivity; lia.
Qed.

(** The stored reset time after [markLimited]: the later of [t] and the
    stored one, whether that entry is live or not. *)
Lemma markLimited_lookup now e t m :
  option_map resetsAt (markLimited now e t m !! e) =
  Some (match option_map resetsAt (m !! e) with Some r => Z.max r t | None => t end).
Proof.
  unfold markLimited. destruct (m !! e) as [en|] eqn:E; simpl.
  - destruct (Z.geb_spec (resetsAt en) t).
    + rewrite E. simpl. f_equal. lia.
    + rewrite lookup_insert_eq. simpl. f_equal. lia.
  - rewrite lookup_insert_eq. reflexivity.
Qed.

Lemma markLimited_lookup_ne now e t m x :
  x <> e -> markLimited now e t m !! x = m !! x.
Proof.
  intros Hx. unfold markLimited.
  destruct (m !! e) as [en|]; [destruct (Z.geb (resetsAt en) t); [reflexivity|]|];
    apply lookup_insert_ne; congruence.
Qed.

Lemma limited_at_alt n m e :
  limited_at n m e = match m !! e with Some en => Z.ltb n (resetsAt en) | None => false end.
Proof.
  unfold limited_at, isLimited. destruct (m !! e) as [en|]; [|reflexivity].
  destruct (Z.leb_spec (resetsAt en) n); destruct (Z.ltb_spec n (resetsAt en));
    simpl; try reflexivity; lia.
Qed.

Lemma loop_cons clock k e rest m :
  getAvailableExecutable_loop clock k (e :: rest) m =
  if limited_at (clock k) m e then getAvailableExecutable_loop clock (S k) rest m
  else (Some e, snd (isLimited (clock k) e m)).
Proof.
  cbn [getAvailableExecutable_loop]. unfold limited_at, isLimited.
  destruct (m !! e) as [en|]; [|reflexivity].
  destruct (Z.leb (resetsAt en) (clock k)); reflexivity.
Qed.

Lemma loop_some clock C m : forall k x,
  fst (getAvailableExecutable_loop clock k C m) = Some x <->
  exists i, nth_error C i = Some x /\ limited_at (clock (k + i)) m x = false /\
    forall j y, j < i -> nth_error C j = Some y -> limited_at (clock (k + j)) m y = true.
Proof.
  induction C as [|e rest IH]; intros k x.
  - simpl. split; [discriminate|]. intros (i & Hi & _). destruct i; discriminate.
  - rewrite loop_cons. destruct (limited_at (clock k) m e) eqn:E.
    + rewrite IH. split.
      * intros (i & Hi & Hl & Hb). exists (S i).
        replace (k + S i) with (S k + i) by lia.
        split; [exact Hi|split; [exact Hl|]].
        intros j y Hj Hy. destruct j as [|j].
        -- simpl in Hy. injection Hy as <-. rewrite Nat.add_0_r. exact E.
        -- replace (k + S j) with (S k + j) by lia. apply (Hb j y); [lia|exact Hy].
      * intros (i & Hi & Hl & Hb). destruct i as [|i].
        -- simpl in Hi. injection Hi as <-. rewrite Nat.add_0_r in Hl. congruence.
        -- exists i. replace (S k + i) with (k + S i) by lia.
           split; [exact Hi|split; [exact Hl|]].
           intros j y Hj Hy. replace (S k + j) with (k + S j) by lia.
           apply (Hb (S j) y); [lia|exact Hy].
    + simpl. split.
      * intros [= <-]. exists 0. rewrite Nat.add_0_r.
        split; [reflexivity|split; [exact E|]]. intros j y Hj. lia.
      * intros (i & Hi & Hl & Hb). destruct i as [|i].
        -- simpl in Hi. congruence.
        -- specialize (Hb 0 e ltac:(lia) eq_refl). rewrite Nat.add_0_r in Hb. congruence.
Qed.

Lemma loop_none clock C m : forall k,
  fst (getAvailableExecutable_loop clock k C m) = None <->
  forall i y, nth_error C i = Some y -> limited_at (clock (k + i)) m y = true.
Proof.
  induction C as [|e rest IH]; intros k.
  - simpl. split; [|reflexivity]. intros _ i y Hy. destruct i; discriminate.
  - rewrite loop_cons. destruct (limited_at (clock k) m e) eqn:E.
    + rewrite IH. split.
      * intros H i y Hy. destruct i as [|i].
        -- simpl in Hy. injection Hy as <-. rewrite Nat.add_0_r. exact E.
        -- replace (k + S i) with (S k + i) by lia. apply H. exact Hy.
      * intros H i y Hy. replace (S k + i) with (k + S i) by lia. apply H. exact Hy.
    + simpl. split; [discriminate|]. intros H.
      specialize (H 0 e eq_refl). rewrite Nat.add_0_r in H. congruence.
Qed.

Lemma loop_const now C m : forall k,
  fst (getAvailableExecutable_loop (fun _ => now) k C m) =
  find (fun e => negb (limited_at now m e)) C.
Proof.
  induction C as [|e rest IH]; intros k; [reflexivity|].
  rewrite loop_cons. simpl find. destruct (limited_at now m e); simpl; [apply IH|reflexivity].
Qed.

Lemma every_loop clock C : forall k m,
  every_limited clock k C m =
  (match fst (getAvailableExecutable_loop clock k C m) with None => true | Some _ => false end,
   snd (getAvailableExecutable_loop clock k C m)).
Proof.
  induction C as [|e rest IH]; intros k m; [reflexivity|].
  cbn [every_limited getAvailableExecutable_loop].
  destruct (isLimited (clock k) e m) as [[|] m']; [apply IH|reflexivity].
Qed.

End RateLimitFacts.

Module Throttle.
Import RateLimit RateLimitFacts.

(** C3: after [markLimited(e, t1)] and [markLimited(e, t2)], the entry of
    [e] is stored with the latest of [t1], [t2] and the reset time stored
    before, live or not.  At any time [n], if [e] had no live window then,
    the reset time in force is [max(t1, t2)] (none once that has passed);
    if it had one, the maximum of it, [t1] and [t2]: a call never shortens
    a live window and a later [resetsAt] extends it. *)
Theorem markLimited_never_downgrades m e t1 t2 r1 r2 n :
  let m2 := markLimited r2 e t2 (markLimited r1 e t1 m) in
  option_map resetsAt (m2 !! e) =
    Some (match option_map resetsAt (m !! e) with
          | Some t0 => Z.max (Z.max t0 t1) t2
          | None => Z.max t1 t2 end) /\
  (effective_reset n m e = None ->
   effective_reset n m2 e = if Z.ltb n (Z.max t1 t2) then Some (Z.max t1 t2) else None) /\
  (forall t0, effective_reset n m e = Some t0 ->
   effective_reset n m2 e = Some (Z.max (Z.max t0 t1) t2)).
Proof.
  intros m2. unfold m2. rewrite !effective_reset_alt.
  rewrite !markLimited_lookup.
  destruct (option_map resetsAt (m !! e)) as [t0|]; simpl.
  - split; [reflexivity|split].
    + destruct (Z.ltb_spec n t0); [discriminate|]. intros _.
      destruct (Z.ltb_spec n (Z.max (Z.max t0 t1) t2));
        destruct (Z.ltb_spec n (Z.max t1 t2)); try (f_equal; lia); try reflexivity; lia.
    + intros t0'. destruct (Z.ltb_spec n t0); [intros [= <-]|discriminate].
      destruct (Z.ltb_spec n (Z.max (Z.max t0 t1) t2)); [reflexivity|lia].
  - split; [reflexivity|split]; [intros _; reflexivity|discriminate].
Qed.

(** An entry that reset at 61000 is still stored at time 70000; calls with
    31000 and 90000 leave 90000 in force. *)
Lemma markLimited_never_downgrades_witness :
  effective_reset 70000
    (markLimited 70000 "claude" 90000
       (markLimited 70000 "claude" 31000 {[ "claude" := mkEntry 61000 0 ]})) "claude"
  = Some 90000%Z.
Proof.
  exact (proj1 (proj2 (markLimited_never_downgrades {[ "claude" := mkEntry 61000 0 ]}
                         "claude" 31000 90000 70000 70000 70000)) eq_refl).
Defined.

(** C4: [getAvailableExecutable] returns the first executable of the chain
    for which [isLimited], at its own reading of the clock, answers
    [false] (chain order is the priority order), and [undefined] exactly
    when [isLimited] answers [true] for every executable of the chain, in
    particular for the empty chain.  With one reading [now] throughout, it
    is the first executable not limited at [now]. *)
Theorem getAvailableExecutable_first clock C m :
  (forall x, fst (getAvailableExecutable clock C m) = Some x <->
   exists i, nth_error C i = Some x /\ limited_at (clock i) m x = false /\
     forall j y, j < i -> nth_error C j = Some y -> limited_at (clock j) m y = true) /\
  (fst (getAvailableExecutable clock C m) = None <->
   forall i y, nth_error C i = Some y -> limited_at (clock i) m y = true) /\
  fst (getAvailableExecutable clock [] m) = None /\
  (forall now, fst (getAvailableExecutable (fun _ => now) C m) =
               find (fun e => negb (limited_at now m e)) C).
Proof.
  unfold getAvailableExecutable.
  split; [intros x; exact (loop_some clock C m 0 x)|].
  split; [exact (loop_none clock C m 0)|].
  split; [reflexivity|]. intros now. apply loop_const.
Qed.

End Throttle.

(* ------------------------------------------------------------------ *)
(** ** The session routes' rate-limit guard *)

Module RateLimitGuard.
Import SessionRoutes.



End RateLimitGuard.

(* ------------------------------------------------------------------ *)
(** ** Stuck tasks and startup recovery *)

Module StuckTasks.
Import Diagnostics.

Lemma status_eqb_eq a b : status_eqb a b = true <-> a = b.
Proof. destruct a, b; simpl; split; congruence. Qed.

Lemma in_fold_filter {A B} (p : A -> bool) (f : A -> option B) l d :
  In d (fold_right (fun t acc => match f t with Some x => x :: acc | None => acc end) []
                   (List.filter p l)) <->
  exists t, In t l /\ p t = true /\ f t = Some d.
Proof.
  induction l as [|t l IH]; simpl.
  - split; [intros []|intros (? & [] & _)].
  - destruct (p t) eqn:Ep; simpl.
    + destruct (f t) as [x|] eqn:Ef; simpl; rewrite IH.
      * split.
        -- intros [<- | (t' & ? & ? & ?)]; [exists t; auto|exists t'; auto].
        -- intros (t' & [<- | ?] & ? & ?); [left; congruence|right; exists t'; auto].
      * split.
        -- intros (t' & ? & ? & ?). exists t'; auto.
        -- intros (t' & [<- | ?] & ? & ?); [congruence|exists t'; auto].
    + rewrite IH. split.
      * intros (t' & ? & ? & ?). exists t'; auto.
      * intros (t' & [<- | ?] & ? & ?); [congruence|exists t'; auto].
Qed.

(** C8: a task is reported as stuck exactly when its status is
    in_progress or review, its orchestrator metadata names an assigned
    agent (a non-empty string), its [resumeCount] (0 when absent) is at
    least 2, and the session manager has no active session for that agent;
    the report carries the task, its title (the id when the title is
    empty), status, agent, resume count and merge status.  The function
    only builds this list: it starts, resumes and changes nothing. *)
Theorem collectStuckTasks_spec {S} (getActiveSession : string -> option S) tasks d :
  In d (collectStuckTasks getActiveSession tasks) <->
  exists t meta a rc,
    In t tasks /\ (status t = InProgress \/ status t = Review) /\
    orchestrator t = Some meta /\ assignedAgent meta = Some a /\ a <> EmptyString /\
    rc = match resumeCount meta with Some n => n | None => 0%Z end /\ (2 <= rc)%Z /\
    getActiveSession a = None /\
    d = mkStuck (id t) (if String.eqb (title t) EmptyString then id t else title t)
                (status t) (Some a) rc (mergeStatus meta).
Proof.
  unfold collectStuckTasks. rewrite in_fold_filter. split.
  - intros (t & Hin & Hs & He). unfold stuck_entry in He.
    destruct (orchestrator t) as [meta|] eqn:Eo; [|discriminate].
    destruct (assignedAgent meta) as [a|] eqn:Ea; [|discriminate].
    destruct (String.eqb_spec a EmptyString); simpl in He; [discriminate|].
    destruct (Z.leb_spec 2 (match resumeCount meta with Some n => n | None => 0%Z end));
      [|discriminate].
    destruct (getActiveSession a) eqn:Eg; [discriminate|].
    injection He as <-.
    exists t, meta, a, (match resumeCount meta with Some n => n | None => 0%Z end).
    repeat split; auto.
    apply orb_true_iff in Hs. destruct Hs as [Hs|Hs]; apply status_eqb_eq in Hs; auto.
  - intros (t & meta & a & rc & Hin & Hs & Eo & Ea & Ha & -> & Hrc & Eg & ->).
    exists t. split; [exact Hin|split].
    + destruct Hs as [-> | ->]; reflexivity.
    + unfold stuck_entry. rewrite Eo, Ea.
      destruct (String.eqb_spec a EmptyString); [contradiction|]. simpl.
      destruct (Z.leb_spec 2 (match resumeCount meta with Some n => n | None => 0%Z end));
        [|lia].
      rewrite Eg. reflexivity.
Qed.

End StuckTasks.

Module StartupRecovery.
Import Daemon.
Lemma inv_nodup orph s : NoDup orph -> inv orph s -> NoDup (effects s ++ orphans s).
Proof. intros Hn [Hp _]. rewrite Hp. exact Hn. Qed.

Lemma remove_head_notin (t : nat) td : ~ In t td -> List.remove Nat.eq_dec t (t :: td) = td.
Proof.
  intros H. simpl. destruct (Nat.eq_dec t t) as [_|]; [|congruence].
  apply notin_remove. exact H.
Qed.
Lemma nodup_mid (ef : list nat) t td : NoDup (ef ++ t :: td) -> ~ In t td.
Proof.
  intros H Hin. apply NoDup_app in H as (_ & _ & H). apply NoDup_cons in H as [H _].
  apply H. apply list_elem_of_In. exact Hin.
Qed.

Lemma step_inv orph a s s' : NoDup orph -> inv orph s -> step a s = Some s' -> inv orph s'.
Proof.
  intros Hn Hi Hs. pose proof (inv_nodup orph s Hn Hi) as Hd.
  destruct Hi as [Hp Hc].
  destruct a, s as [o ef st pl]; simpl in *;
    destruct st as [| |td|]; try destruct td as [|t td]; destruct pl as [| |ptd|];
    try destruct ptd as [|pt ptd]; simpl in *; try discriminate;
    injection Hs as <-; unfold inv; simpl in *;
    destruct Hc as [Hc1 Hc2]; subst;
    try (exfalso; destruct Hc2 as [Hc2|Hc2]; discriminate Hc2);
    try (exfalso; discriminate Hc2);
    try (exfalso; specialize (Hc2 _ eq_refl); discriminate Hc2);
    try (rewrite remove_head_notin
           by (eapply nodup_mid; exact Hd);
         rewrite <- app_assoc);
    repeat split; try assumption; try reflexivity; try (left; reflexivity);
    try (right; reflexivity); try (intros ? Heq; injection Heq as <-; reflexivity);
    try (intros ? Heq; discriminate Heq).
Qed.



Lemma run_inv orph sched s s' : NoDup orph -> inv orph s -> run sched s = Some s' -> inv orph s'.
Proof.
  intros Hn. revert s. induction sched as [|a rest IH]; intros s Hi Hr; simpl in Hr.
  - injection Hr as <-. exact Hi.
  - destruct (step a s) as [s1|] eqn:E; [|discriminate].
    eapply IH; [eapply step_inv; eauto | exact Hr].
Qed.

Lemma inv_initial orph : inv orph (initial orph).
Proof. split; [reflexivity | split; reflexivity]. Qed.

(** C9: whatever the interleaving of [start()], the poll trigger (issued
    any time after [start()], also while the startup recovery is still
    listing or recovering) and the two recovery passes, no orphaned task
    has its recovery side effect applied twice, only orphaned tasks are
    recovered, and once the startup pass (which the first poll cycle
    awaits through the latch) has finished, every orphan has been
    recovered exactly once. *)
Theorem startup_recovery_once orph sched s
  (Hn : NoDup orph) (Hr : run sched (initial orph) = Some s) :
  NoDup (effects s) /\ (forall t, In t (effects s) -> In t orph) /\
  (startup s = Finished -> effects s ≡ₚ orph) /\
  (poll s = PollFinished -> startup s = Finished).
Proof.
  pose proof (run_inv orph sched _ s Hn (inv_initial orph) Hr) as Hi.
  pose proof (inv_nodup orph s Hn Hi) as Hd.
  destruct Hi as [Hp Hc]. split; [|split; [|split]].
  - apply NoDup_app in Hd. tauto.
  - intros t Ht. apply (Permutation_in t Hp). apply in_or_app. left. exact Ht.
  - intros Hf. rewrite Hf in Hc. destruct Hc as [Ho _]. rewrite Ho, app_nil_r in Hp. exact Hp.
  - intros Hpf. destruct (startup s); rewrite ?Hpf in Hc; intuition discriminate.
Qed.

(** The trigger arrives right after [start()], before the listing. *)
Lemma startup_recovery_once_witness :
  NoDup [1; 2] /\
  run [AStart; ATrigger; AStartupList; AStartupOne; AStartupOne; AStartupDone; ALatch; APollDone]
      (initial [1; 2]) = Some (mkState [] [1; 2] Finished PollFinished) /\
  (NoDup [1; 2] /\ (forall t, In t [1; 2] -> In t [1; 2]) /\
   (Finished = Finished -> [1; 2] ≡ₚ [1; 2]) /\ (PollFinished = PollFinished -> Finished = Finished)).
Proof.
  assert (Hn : NoDup [1; 2]) by (repeat constructor; set_solver).
  split; [exact Hn|split; [reflexivity|]].
  exact (startup_recovery_once [1; 2]
           [AStart; ATrigger; AStartupList; AStartupOne; AStartupOne; AStartupDone; ALatch; APollDone]
           (mkState [] [1; 2] Finished PollFinished) Hn eq_refl).
Defined.

End StartupRecovery.

(* ------------------------------------------------------------------ *)
(** ** The stages of a [mergeBranch] run *)

Module MergeRuns.
Import JsString Git TraceProps MonadFacts GitTrace.
Local Open Scope list_scope.

Lemma bind_inv {A B} (m : M A) (k : A -> M B) tr r tr' :
  bind m k tr = (r, tr') ->
  (exists e, m tr = (inr e, tr') /\ r = inr e) \/
  (exists a tr1, m tr = (inl a, tr1) /\ k a tr1 = (r, tr')).
Proof.
  unfold bind. destruct (m tr) as [[a|e] tr1]; intros H.
  - right. eauto.
  - left. injection H as <- <-. eauto.
Qed.

Ltac nothrow_step :=
  lazymatch goal with
  | |- nothrow (let _ := _ in _) => cbv zeta
  | |- nothrow (bind _ _) => apply nothrow_bind; [ | intros ? ]
  | |- nothrow (catch _ _) => apply nothrow_catch; intros ?
  | |- nothrow (finally _ _) => apply nothrow_finally
  | |- nothrow (ret _) => apply nothrow_ret
  | |- nothrow (if ?b then _ else _) => destruct b
  | |- nothrow (match ?x with _ => _ end) => destruct x
  end.

Lemma Forall_Exists_false {A} (P : A -> Prop) l : Forall (fun x => ~ P x) l -> Exists P l -> False.
Proof. intros HF HE. induction HE as [x l Hx|x l _ IH]; inversion HF; subst; auto. Qed.

Section Grows.
Variable oracle : trace -> call -> exec_result.
Variable process_cwd : string.

Lemma grows_ret {A} (a : A) : grows (ret a).
Proof. intros tr. exists []. simpl. symmetry. apply app_nil_r. Qed.

Lemma grows_throw {A} e : grows (@throw A e).
Proof. intros tr. exists []. simpl. symmetry. apply app_nil_r. Qed.

Lemma grows_run c : grows (run oracle c).
Proof. intros tr. exists [c]. unfold run. destruct (oracle tr c); reflexivity. Qed.

Lemma grows_bind {A B} (m : M A) (k : A -> M B) :
  grows m -> (forall a, grows (k a)) -> grows (bind m k).
Proof.
  intros Hm Hk tr. unfold bind. destruct (Hm tr) as (d1 & E1).
  destruct (m tr) as [[a|e] tr1]; simpl in *; subst.
  - destruct (Hk a (tr ++ d1)) as (d2 & E2). exists (d1 ++ d2). rewrite E2, app_assoc. reflexivity.
  - eauto.
Qed.

Lemma grows_catch {A} (m : M A) h :
  grows m -> (forall e, grows (h e)) -> grows (catch m h).
Proof.
  intros Hm Hh tr. unfold catch. destruct (Hm tr) as (d1 & E1).
  destruct (m tr) as [[a|e] tr1]; simpl in *; subst.
  - eauto.
  - destruct (Hh e (tr ++ d1)) as (d2 & E2). exists (d1 ++ d2). rewrite E2, app_assoc. reflexivity.
Qed.

Lemma grows_finally {A} (m : M A) f : grows m -> grows f -> grows (finally m f).
Proof.
  intros Hm Hf tr. unfold finally. destruct (Hm tr) as (d1 & E1).
  destruct (m tr) as [r tr1]; simpl in *; subst.
  destruct (Hf (tr ++ d1)) as (d2 & E2).
  destruct (f (tr ++ d1)) as [[u|e] tr2]; simpl in *; subst;
    exists (d1 ++ d2); rewrite app_assoc; reflexivity.
Qed.

End Grows.

Ltac grows_step :=
  lazymatch goal with
  | |- grows (let _ := _ in _) => cbv zeta
  | |- grows (bind _ _) => apply grows_bind; [ | intros ? ]
  | |- grows (catch _ _) => apply grows_catch; [ | intros ? ]
  | |- grows (finally _ _) => apply grows_finally
  | |- grows (ret _) => apply grows_ret
  | |- grows (throw _) => apply grows_throw
  | |- grows (execAsync _ _ _) => apply grows_run
  | |- grows (execGitSafe _ _ _ _ _) => unfold execGitSafe
  | |- grows (run _ _) => apply grows_run
  | |- grows (if ?b then _ else _) => destruct b
  | |- grows (match ?x with _ => _ end) => destruct x
  end.
Section Stages.
Variable oracle : trace -> call -> exec_result.
Variable exists_sync : string -> bool.
Variable date_now : N.
Variable process_cwd : string.

Lemma nothrow_hasRemote root n : nothrow (hasRemote oracle root n).
Proof. unfold hasRemote. repeat nothrow_step. Qed.

Lemma nothrow_detectTargetBranch root : nothrow (detectTargetBranch oracle root).
Proof.
  unfold detectTargetBranch, hasRemote, or_else, try_origin_head, try_verify, attempt.
  simpl try_local. unfold or_else, try_verify, attempt.
  repeat nothrow_step.
Qed.

Lemma nothrow_preflight_check lo root target src :
  nothrow (preflight_check oracle lo root target src).
Proof. unfold preflight_check. repeat nothrow_step. Qed.

Lemma nothrow_sync_step r sync lo push root target :
  nothrow (sync_step oracle r sync lo push root target).
Proof.
  unfold sync_step, syncLocalBranchFromCommit, syncLocalBranch. repeat nothrow_step.
Qed.

Lemma nothrow_after_worktree_add strat push sync lo root src target message dir :
  nothrow (after_worktree_add oracle process_cwd strat push sync lo root src target message dir).
Proof.
  unfold after_worktree_add. apply nothrow_bind.
  - unfold merge_catch. apply nothrow_finally; repeat nothrow_step.
  - intros r. apply nothrow_bind; [apply nothrow_sync_step | intros; apply nothrow_ret].
Qed.

(** The dry run of step 2, command by command. *)
Lemma preflight_check_cases (lo : bool) root target src tr :
  let rf := if lo then target else ("origin/" ++ target)%string in
  let mb := mkCall (MergeBase rf src) root false in
  preflight_check oracle lo root target src tr =
  match oracle tr mb with
  | Fail _ => (inl None, tr ++ [mb])
  | Ok base =>
    let mt := mkCall (MergeTree (trim base) rf src) root false in
    (inl (match dry_run_stdout (oracle (tr ++ [mb]) mt) with
          | Some out => if includes out "<<<<<<<" then Some (preflight_conflict out) else None
          | None => None
          end), tr ++ [mb] ++ [mt])
  end.
Proof.
  intros rf mb. unfold preflight_check, catch, bind, execAsync, run, ret. fold rf. fold mb.
  destruct (oracle tr mb) as [base|e]; [|reflexivity].
  destruct (oracle (tr ++ [mb]) _) as [out|e]; simpl;
    [|destruct (e_stdout e) as [out|]]; rewrite <- ?app_assoc;
    try destruct (includes out "<<<<<<<"); reflexivity.
Qed.

(** Steps 3 to 8, command by command up to the worktree creation. *)
Lemma worktree_phase_cases strat push sync (lo : bool) root src target message tr :
  let dir := merge_dir date_now root src in
  let rm := mkCall (WorktreeRemove dir) root false in
  let add := mkCall (WorktreeAdd dir (if lo then target else ("origin/" ++ target)%string)) root false in
  let go tr1 := match oracle tr1 add with
                | Fail e => (inr e, tr1 ++ [add])
                | Ok _ => after_worktree_add oracle process_cwd strat push sync lo root src target
                            message dir (tr1 ++ [add])
                end in
  worktree_phase oracle exists_sync date_now process_cwd strat push sync lo root src target
    message tr =
  if exists_sync dir
  then match oracle tr rm with Fail e => (inr e, tr ++ [rm]) | Ok _ => go (tr ++ [rm]) end
  else go tr.
Proof.
  intros dir rm add go. unfold worktree_phase, bind, execAsync, run, ret. fold dir rm add.
  destruct (exists_sync dir); [destruct (oracle tr rm); [|reflexivity]|];
    unfold go; destruct (oracle _ add); reflexivity.
Qed.

(** A run of [mergeBranch] from the empty trace: the detection commands,
    then [git fetch origin] (unless local-only), which throws or goes on to
    the dry run and then either returns its early result or runs the
    worktree phase. *)
Lemma mergeBranch_run o r tr' :
  mergeBranch oracle exists_sync date_now process_cwd o [] = (r, tr') ->
  let root := workspaceRoot o in
  let src := sourceBranch o in
  let strat := opt_or Squash (mergeStrategy o) in
  let fetch := mkCall FetchOrigin root false in
  exists (lo : bool) target tr2,
    Forall (fun c => detect_cmd (c_cmd c) = true /\ c_cwd c = root /\ c_safe c = false) tr2 /\
    ((lo = false /\ exists e, oracle tr2 fetch = Fail e /\ r = inr e /\ tr' = tr2 ++ [fetch]) \/
     exists tr3 early tr4,
       ((lo = true /\ tr3 = tr2) \/
        (lo = false /\ tr3 = tr2 ++ [fetch] /\ exists out, oracle tr2 fetch = Ok out)) /\
       (if opt_or true (preflight o) then preflight_check oracle lo root target src else ret None) tr3
         = (inl early, tr4) /\
       match early with
       | Some r0 => r = inl r0 /\ tr' = tr4
       | None =>
         worktree_phase oracle exists_sync date_now process_cwd strat (opt_or true (autoPush o))
           (opt_or true (syncLocal o)) lo root src target
           (opt_or (default_message strat src target) (commitMessage o)) tr4 = (r, tr')
       end).
Proof.
  intros H root src strat fetch.
  unfold mergeBranch in H. cbv zeta in H. fold root src strat in H.
  destruct (keeps_prefix oracle (fun c => detect_cmd (c_cmd c) = true /\ c_cwd c = root /\
                                        c_safe c = false) root (localOnly o) (targetBranch o))
    as [K1 K2]; [intros c Hc; auto|].
  apply bind_inv in H as [(e & H1 & _) | (lo & tr1 & H1 & H)].
  { exfalso. destruct (localOnly o); [discriminate|].
    destruct (nothrow_bind _ (fun r => ret (negb r)) (nothrow_hasRemote root "origin")
                (fun b => nothrow_ret (negb b)) []) as (? & ? & E). congruence. }
  apply bind_inv in H as [(e & H2 & _) | (target & tr2 & H2 & H)].
  { exfalso. destruct (targetBranch o); [discriminate|].
    destruct (nothrow_detectTargetBranch root tr1) as (? & ? & E). congruence. }
  exists lo, target, tr2. split.
  { specialize (K1 [] ltac:(constructor)). rewrite H1 in K1. specialize (K2 tr1 K1).
    rewrite H2 in K2. exact K2. }
  apply bind_inv in H as [(e & H3 & ->) | (u & tr3 & H3 & H)].
  { left. destruct lo; [discriminate|]. unfold execAsync, run in H3. fold fetch in H3.
    destruct (oracle tr2 fetch) eqn:E; inversion H3; subst. split; [reflexivity|]. eauto. }
  right. apply bind_inv in H as [(e & H4 & _) | (early & tr4 & H4 & H)].
  { exfalso. destruct (opt_or true (preflight o)).
    - destruct (nothrow_preflight_check lo root target src tr3) as (? & ? & E). congruence.
    - discriminate. }
  exists tr3, early, tr4. split; [|split; [exact H4|]].
  - destruct lo; [left; inversion H3; auto|right].
    unfold execAsync, run in H3. fold fetch in H3.
    destruct (oracle tr2 fetch) eqn:E; inversion H3; subst. eauto.
  - destruct early as [r0|]; [|exact H]. inversion H; auto.
Qed.

Lemma grows_after_worktree_add strat push sync lo root src target message dir :
  grows (after_worktree_add oracle process_cwd strat push sync lo root src target message dir).
Proof.
  unfold after_worktree_add, merge_body, merge_catch, sync_step, syncLocalBranchFromCommit,
    syncLocalBranch, current_branch.
  repeat grows_step.
Qed.

(** The worktree phase starts with the leftover removal or the worktree
    creation. *)
Lemma worktree_phase_first strat push sync (lo : bool) root src target message tr :
  let dir := merge_dir date_now root src in
  exists c post,
    snd (worktree_phase oracle exists_sync date_now process_cwd strat push sync lo root src
           target message tr) = tr ++ c :: post /\
    c_cwd c = root /\ (c_cmd c = WorktreeRemove dir \/ exists rf, c_cmd c = WorktreeAdd dir rf).
Proof.
  intros dir. rewrite worktree_phase_cases. cbv zeta. fold dir.
  set (add := mkCall (WorktreeAdd dir (if lo then target else ("origin/" ++ target)%string)) root false).
  assert (Hadd : forall tr1, exists post,
    snd (match oracle tr1 add with
         | Fail e => (inr e, tr1 ++ [add])
         | Ok _ => after_worktree_add oracle process_cwd strat push sync lo root src target
                     message dir (tr1 ++ [add])
         end) = tr1 ++ add :: post).
  { intros tr1. destruct (oracle tr1 add).
    - destruct (grows_after_worktree_add strat push sync lo root src target message dir
                  (tr1 ++ [add])) as [d Ed].
      exists d. rewrite Ed, <- app_assoc. reflexivity.
    - exists []. reflexivity. }
  destruct (exists_sync dir).
  - exists (mkCall (WorktreeRemove dir) root false).
    destruct (oracle tr _).
    + destruct (Hadd (tr ++ [mkCall (WorktreeRemove dir) root false])) as [post E].
      exists (add :: post). split; [rewrite E, <- app_assoc; reflexivity|]. auto.
    + exists []. auto.
  - destruct (Hadd tr) as [post E]. exists add, post. split; [exact E|]. split; [reflexivity|].
    right. eauto.
Qed.

Lemma preflight_step_keeps (P : call -> Prop) (pre lo : bool) root target src tr3 early tr4 :
  (forall rf s, P (mkCall (MergeBase rf s) root false)) ->
  (forall b rf s, P (mkCall (MergeTree b rf s) root false)) ->
  Forall P tr3 ->
  (if pre then preflight_check oracle lo root target src else ret None) tr3 = (inl early, tr4) ->
  Forall P tr4.
Proof.
  intros Hmb Hmt H3 E.
  assert (K : keeps P (if pre then preflight_check oracle lo root target src else ret None)).
  { destruct pre; unfold preflight_check; repeat keeps_step; auto. }
  specialize (K tr3 H3). rewrite E in K. exact K.
Qed.

Lemma preflight_step_early (pre lo : bool) root target src tr3 r0 tr4 :
  (if pre then preflight_check oracle lo root target src else ret None) tr3 = (inl (Some r0), tr4) ->
  exists out, r0 = preflight_conflict out.
Proof.
  destruct pre; [|discriminate]. rewrite preflight_check_cases. cbv zeta.
  destruct (oracle tr3 _); [|discriminate].
  destruct (dry_run_stdout _) as [out|]; [|discriminate].
  destruct (includes out "<<<<<<<"); [|discriminate]. intros [= <- _]. eauto.
Qed.

Lemma keeps_worktree_phase (P : call -> Prop) strat push sync (lo : bool) root src target message :
  let dir := merge_dir date_now root src in
  (forall r, P (mkCall (WorktreeAdd dir r) root false)) ->
  P (mkCall (WorktreeRemove dir) root false) ->
  (forall c, worktree_cmd c = true ->
     NodePath.resolve process_cwd dir <> NodePath.resolve process_cwd root ->
     P (mkCall c dir true)) ->
  (forall c, sync_cmd c = true -> P (mkCall c root false)) ->
  keeps P (worktree_phase oracle exists_sync date_now process_cwd strat push sync lo root src
             target message).
Proof.
  intros dir Ha Hr Hw Hs.
  unfold worktree_phase, after_worktree_add, merge_body, merge_catch. fold dir.
  repeat keeps_step; auto;
    try (apply Hw; [reflexivity | assumption]);
    try (apply keeps_sync_step; exact Hs).
Qed.

End Stages.
End MergeRuns.

(* ------------------------------------------------------------------ *)
(** ** Claim C5: the preflight dry run *)

Module Preflight.
Import JsString Git TraceProps MonadFacts GitTrace MergeRuns.
Local Open Scope list_scope.

(** C5: with the preflight enabled, (a) when every [git merge-tree] dry run
    reports conflict markers and the dry run is reached, [mergeBranch]
    returns [{ success: false, hasConflict: true, conflictFiles }] and never
    issues [git worktree add]; (b) when every [git merge-base] fails and it
    is reached, the call goes on: the command right after the merge-base is
    the removal of a leftover worktree or the [git worktree add] of the
    temporary worktree. *)
Theorem preflight_rejects_early oracle exists_sync date_now process_cwd o
  (Hpre : opt_or true (preflight o) = true) :
  let root := workspaceRoot o in
  let dir := merge_dir date_now root (sourceBranch o) in
  let '(r, tr) := mergeBranch oracle exists_sync date_now process_cwd o [] in
  ((forall h c, is_merge_tree (c_cmd c) = true ->
      exists out, dry_run_stdout (oracle h c) = Some out /\ includes out "<<<<<<<" = true) ->
   Exists (fun c => is_merge_tree (c_cmd c) = true) tr ->
   (exists out, r = inl (preflight_conflict out) /\ includes out "<<<<<<<" = true) /\
   Forall (fun c => is_worktree_add (c_cmd c) = false) tr) /\
  ((forall h c, (exists rf s, c_cmd c = MergeBase rf s) -> exists e, oracle h c = Fail e) ->
   Exists (fun c => exists rf s, c_cmd c = MergeBase rf s) tr ->
   exists pre c c' post, tr = pre ++ c :: c' :: post /\
     (exists rf s, c_cmd c = MergeBase rf s) /\ c_cwd c' = root /\
     (c_cmd c' = WorktreeRemove dir \/ exists rf, c_cmd c' = WorktreeAdd dir rf)).
Proof.
  intros root dir.
  destruct (mergeBranch oracle exists_sync date_now process_cwd o []) as [r tr] eqn:H.
  apply mergeBranch_run in H. cbv zeta in H. fold root in H.
  destruct H as (lo & target & tr2 & HD & [(-> & e & Hf & -> & ->) |
                                           (tr3 & early & tr4 & Htr3 & H4 & Hk)]).
  - (* the fetch threw: no dry run was issued *)
    split; intros _ Hex; exfalso; (eapply Forall_Exists_false; [|exact Hex]);
      apply Forall_app; (split; [| constructor; [cbn; intros ?; firstorder discriminate | constructor]]).
    + eapply Forall_impl; [exact HD|]. intros c [Hc _]. destruct (c_cmd c); discriminate.
    + eapply Forall_impl; [exact HD|]. intros c [Hc _] (? & ? & E). rewrite E in Hc. discriminate.
  - rewrite Hpre, preflight_check_cases in H4.
    assert (H3 : Forall (fun c => detect_cmd (c_cmd c) = true \/ c_cmd c = FetchOrigin) tr3).
    { destruct Htr3 as [[_ ->] | (_ & -> & _)];
        [|apply Forall_app; split; [|repeat constructor; right; reflexivity]];
        (eapply Forall_impl; [exact HD|]); intros c [Hc _]; left; exact Hc. }
    split.
    + intros Hdry Hex.
      destruct (oracle tr3 _) as [base|e] eqn:Emb.
      * cbv zeta in H4. lazymatch type of H4 with
        | context [dry_run_stdout (oracle ?h ?c)] =>
            destruct (Hdry h c eq_refl) as (out & Eout & Hinc)
        end.
        rewrite Eout, Hinc in H4. injection H4 as <- <-. destruct Hk as [-> ->].
        split; [eauto|].
        apply Forall_app; split; [|repeat constructor].
        eapply Forall_impl; [exact H3|].
        intros c [Hc|Hc]; [destruct (c_cmd c); try reflexivity; discriminate|].
        rewrite Hc. reflexivity.
      * injection H4 as <- <-.
        exfalso. eapply Forall_Exists_false; [|exact Hex].
        specialize (keeps_worktree_phase oracle exists_sync date_now process_cwd
                      (fun c => ~ is_merge_tree (c_cmd c) = true)
                      (opt_or Squash (mergeStrategy o)) (opt_or true (autoPush o))
                      (opt_or true (syncLocal o)) lo root (sourceBranch o) target
                      (opt_or (default_message (opt_or Squash (mergeStrategy o)) (sourceBranch o) target)
                              (commitMessage o))) as K.
        assert (Etr : tr = snd (r, tr)) by reflexivity. rewrite <- Hk in Etr. rewrite Etr.
        cbv zeta in K. apply K; clear K.
        -- intros; discriminate.
        -- discriminate.
        -- intros c Hc _. cbn. destruct c; discriminate.
        -- intros c Hc. cbn. destruct c; discriminate.
        -- apply Forall_app; split; [|repeat constructor; discriminate].
           eapply Forall_impl; [exact H3|]. intros c [Hc|Hc]; [destruct (c_cmd c); discriminate|].
           rewrite Hc. discriminate.
    + intros Hmb Hex. cbv zeta in H4.
      lazymatch type of H4 with
      | context [oracle tr3 ?c] =>
          destruct (Hmb tr3 c ltac:(do 2 eexists; reflexivity)) as [e He]; rewrite He in H4
      end.
      injection H4 as <- <-.
      lazymatch type of Hk with
      | worktree_phase _ _ _ _ ?a1 ?a2 ?a3 ?a4 ?a5 ?a6 ?a7 ?a8 ?t = _ =>
          destruct (worktree_phase_first oracle exists_sync date_now process_cwd
                      a1 a2 a3 a4 a5 a6 a7 a8 t) as (c' & post & E & Hc')
      end.
      rewrite Hk in E. simpl in E. rewrite <- app_assoc in E.
      do 4 eexists. split; [exact E|]. split; [do 2 eexists; reflexivity|]. exact Hc'.
Qed.
Lemma preflight_rejects_early_witness :
  opt_or true (preflight (Scenarios.defaults "feature/x")) = true /\
  exists out, fst (mergeBranch Scenarios.conflicting_repo Scenarios.no_leftover Scenarios.clock
                     Scenarios.cwd (Scenarios.defaults "feature/x") []) = inl (preflight_conflict out).
Proof.
  split; [reflexivity|].
  pose proof (preflight_rejects_early Scenarios.conflicting_repo Scenarios.no_leftover
                Scenarios.clock Scenarios.cwd (Scenarios.defaults "feature/x") eq_refl) as H.
  cbv zeta in H. revert H.
  destruct (mergeBranch Scenarios.conflicting_repo Scenarios.no_leftover Scenarios.clock
              Scenarios.cwd (Scenarios.defaults "feature/x") []) as [r tr] eqn:E.
  intros [H _]. simpl.
  destruct H as [(out & -> & _) _]; [| |eauto].
  - intros h [cmd cwd safe] Hc. destruct cmd; try discriminate.
    eexists. split; reflexivity.
  - vm_compute in E. injection E as _ <-. repeat (first [apply Exists_cons_hd; reflexivity | apply Exists_cons_tl]).
Defined.

End Preflight.

(* ------------------------------------------------------------------ *)
(** ** Claim C7: the local sync after a merge *)

Module LocalSync.
Import JsString Git TraceProps MonadFacts GitTrace MergeRuns.
Local Open Scope list_scope.

Lemma fst_bind_ext {A B} (m : M A) (k1 k2 : A -> M B) tr :
  (forall a tr', fst (k1 a tr') = fst (k2 a tr')) -> fst (bind m k1 tr) = fst (bind m k2 tr).
Proof. intros H. unfold bind. destruct (m tr) as [[a|e] tr1]; [apply H|reflexivity]. Qed.

Section Sync.
Variable oracle : trace -> call -> exec_result.
Variable exists_sync : string -> bool.
Variable date_now : N.
Variable process_cwd : string.

Lemma after_worktree_add_sync_irrelevant strat push s1 s2 lo root src target message dir tr :
  fst (after_worktree_add oracle process_cwd strat push s1 lo root src target message dir tr) =
  fst (after_worktree_add oracle process_cwd strat push s2 lo root src target message dir tr).
Proof.
  unfold after_worktree_add. apply fst_bind_ext. intros r tr'. unfold bind.
  destruct (nothrow_sync_step oracle r s1 lo push root target tr') as (u1 & t1 & ->).
  destruct (nothrow_sync_step oracle r s2 lo push root target tr') as (u2 & t2 & ->).
  reflexivity.
Qed.

Lemma worktree_phase_sync_irrelevant strat push s1 s2 lo root src target message tr :
  fst (worktree_phase oracle exists_sync date_now process_cwd strat push s1 lo root src target
         message tr) =
  fst (worktree_phase oracle exists_sync date_now process_cwd strat push s2 lo root src target
         message tr).
Proof.
  rewrite !worktree_phase_cases. cbv zeta.
  destruct (exists_sync _); [destruct (oracle tr _); [|reflexivity]|];
    (destruct (oracle _ _); [apply after_worktree_add_sync_irrelevant|reflexivity]).
Qed.

End Sync.

(** C7 (corrected): the local sync never changes the result of
    [mergeBranch] (it is the result of the same call with
    [syncLocal: false]), and the sync step, after a successful merge with
    [syncLocal] on, runs only when [localOnly] or [autoPush] holds. It reads
    the current branch; with [localOnly] it runs [git merge --ff-only] when
    the workspace is on the target and [git branch -f] (a forced ref update)
    otherwise, also on a detached HEAD; without [localOnly] it runs
    [git merge --ff-only origin/<target>] on the target, [git fetch origin
    <target>:<target>] on another branch, and nothing on a detached HEAD. *)
Theorem sync_local_behaviour oracle exists_sync date_now process_cwd o tr :
  fst (mergeBranch oracle exists_sync date_now process_cwd o tr) =
  fst (mergeBranch oracle exists_sync date_now process_cwd (without_sync o) tr) /\
  (forall r sync (lo push : bool) root target tr1,
     let hash := opt_or "" (commitHash r) in
     let c0 := mkCall SymbolicRefShortHead root false in
     let cur := match oracle tr1 c0 with Ok out => Some (trim out) | Fail _ => None end in
     sync_step oracle r sync lo push root target tr1 =
     (inl tt,
      if success r && sync && (lo || push) then
        tr1 ++ c0 ::
          (if lo then
             [mkCall (if match cur with Some c => String.eqb c target | None => false end
                      then MergeFFOnly hash else BranchForce target hash) root false]
           else match cur with
                | Some c =>
                  if String.eqb c EmptyString then []
                  else [mkCall (if String.eqb c target then MergeFFOnly ("origin/" ++ target)%string
                                else FetchRefspec target) root false]
                | None => []
                end)
      else tr1)).
Proof.
  split.
  - unfold mergeBranch, without_sync. cbv zeta. cbn [workspaceRoot sourceBranch targetBranch
      mergeStrategy autoPush commitMessage preflight syncLocal localOnly].
    apply fst_bind_ext. intros lo tr1. apply fst_bind_ext. intros target tr2.
    apply fst_bind_ext. intros u tr3. apply fst_bind_ext. intros early tr4.
    destruct early; [reflexivity|]. apply worktree_phase_sync_irrelevant.
  - intros r sync lo push root target tr1 hash c0 cur.
    unfold sync_step, syncLocalBranchFromCommit, syncLocalBranch, current_branch.
    destruct (success r), sync; simpl; [|rewrite ?app_nil_r; reflexivity ..].
    unfold catch, bind, execAsync, run, ret. fold c0.
    destruct lo, push; simpl; try (rewrite app_nil_r; reflexivity);
      unfold cur; destruct (oracle tr1 c0) as [out|e]; simpl; try reflexivity;
      repeat (match goal with |- context [if String.eqb ?a ?b then _ else _] =>
                destruct (String.eqb a b) end; simpl);
      repeat (match goal with |- context [oracle ?h ?c] => destruct (oracle h c) end; simpl);
      rewrite <- ?app_assoc; reflexivity.
Qed.

(** C7 counterexample: with [autoPush: false] and [syncLocal] left at its
    default [true], a successful merge runs no local-sync command at all. *)
Lemma sync_skipped_without_autoPush :
  fst (mergeBranch Scenarios.clean_repo Scenarios.no_leftover Scenarios.clock Scenarios.cwd
         (Scenarios.no_push "feature/x") [])
    = inl (mkResult true (Some "deadbeef") false None None) /\
  opt_or true (syncLocal (Scenarios.no_push "feature/x")) = true /\
  Forall (fun c => sync_cmd (c_cmd c) = false)
    (snd (mergeBranch Scenarios.clean_repo Scenarios.no_leftover Scenarios.clock Scenarios.cwd
            (Scenarios.no_push "feature/x") [])).
Proof.
  split; [vm_compute; reflexivity|split; [reflexivity|]].
  vm_compute. repeat constructor.
Qed.

End LocalSync.

(* ------------------------------------------------------------------ *)
(** ** Claim C10: where [mergeBranch] rejects *)

Module Totality.
Import JsString Git TraceProps MonadFacts GitTrace MergeRuns.
Local Open Scope list_scope.

(** C10: [mergeBranch] can reject (it does on a repository whose fetch
    fails); it rejects only with the failure of [git fetch origin], of the
    removal of a leftover worktree or of [git worktree add], all run in the
    workspace root; each of those failures, once reached, is the rejection;
    and a [{ success: false }] result is either the preflight conflict
    report or comes after the temporary worktree was added. *)
Theorem mergeBranch_throws oracle exists_sync date_now process_cwd o :
  (exists e, fst (mergeBranch Scenarios.unreachable_remote Scenarios.no_leftover Scenarios.clock
                    Scenarios.cwd (Scenarios.defaults "feature/x") []) = inr e) /\
  let root := workspaceRoot o in
  let dir := merge_dir date_now root (sourceBranch o) in
  throws_only oracle
    (fun c => c_cwd c = root /\ c_safe c = false /\
              (c_cmd c = FetchOrigin \/ c_cmd c = WorktreeRemove dir \/
               exists rf, c_cmd c = WorktreeAdd dir rf))
    (mergeBranch oracle exists_sync date_now process_cwd o) /\
  let '(r, tr) := mergeBranch oracle exists_sync date_now process_cwd o [] in
  (forall e, (forall h, oracle h (mkCall FetchOrigin root false) = Fail e) ->
     In (mkCall FetchOrigin root false) tr -> r = inr e) /\
  (forall e, exists_sync dir = true ->
     (forall h, oracle h (mkCall (WorktreeRemove dir) root false) = Fail e) ->
     In (mkCall (WorktreeRemove dir) root false) tr -> r = inr e) /\
  (forall e, (forall h rf, oracle h (mkCall (WorktreeAdd dir rf) root false) = Fail e) ->
     Exists (fun c => is_worktree_add (c_cmd c) = true) tr -> r = inr e) /\
  (forall res, r = inl res -> success res = false ->
     (exists out, res = preflight_conflict out) \/
     Exists (fun c => is_worktree_add (c_cmd c) = true) tr).
Proof.
  split; [eexists; vm_compute; reflexivity|]. intros root dir. split.
  - unfold mergeBranch. cbv zeta. fold root.
    apply throws_only_bind; [apply throws_only_nothrow|intros lo].
    { destruct (localOnly o); repeat nothrow_step. apply nothrow_hasRemote. }
    apply throws_only_bind; [apply throws_only_nothrow|intros target].
    { destruct (targetBranch o); repeat nothrow_step. apply nothrow_detectTargetBranch. }
    apply throws_only_bind.
    { destruct lo; [apply throws_only_nothrow, nothrow_ret|].
      apply throws_only_run. cbn. auto. }
    intros _. apply throws_only_bind.
    { apply throws_only_nothrow. destruct (opt_or true (preflight o));
        [apply nothrow_preflight_check|apply nothrow_ret]. }
    intros [r0|]; [apply throws_only_nothrow, nothrow_ret|].
    unfold worktree_phase. cbv zeta. fold dir.
    apply throws_only_bind.
    { destruct (exists_sync dir); [apply throws_only_run; cbn; auto|].
      apply throws_only_nothrow, nothrow_ret. }
    intros _. apply throws_only_bind; [apply throws_only_run; cbn; eauto 6|].
    intros _. apply throws_only_nothrow, nothrow_after_worktree_add.
  - destruct (mergeBranch oracle exists_sync date_now process_cwd o []) as [r tr] eqn:H.
    apply mergeBranch_run in H. cbv zeta in H. fold root in H.
    destruct H as (lo & target & tr2 & HD & [(-> & e0 & Hf0 & -> & ->) |
                                             (tr3 & early & tr4 & Htr3 & H4 & Hk)]).
    + (* the fetch threw *)
      assert (T : forall P : gitcmd -> Prop, (forall c, detect_cmd c = true -> P c) ->
                    P FetchOrigin -> Forall (fun c => P (c_cmd c)) (tr2 ++ [mkCall FetchOrigin root false])).
      { intros P Hd Hf. apply Forall_app. split; [|repeat constructor; exact Hf].
        eapply Forall_impl; [exact HD|]. intros c [Hc _]. auto. }
      split; [|split; [|split]].
      * intros e Hf _. rewrite Hf in Hf0. congruence.
      * intros e _ _ Hin. exfalso.
        specialize (T (fun c => c <> WorktreeRemove dir)
                      ltac:(intros c Hc ->; discriminate) ltac:(discriminate)).
        exact (proj1 (List.Forall_forall _ _) T _ Hin eq_refl).
      * intros e _ Hex. exfalso. eapply Forall_Exists_false; [|exact Hex].
        apply (T (fun c => is_worktree_add c <> true)); [intros c Hc; destruct c; discriminate|discriminate].
      * intros res [=].
    + assert (T4 : forall P : gitcmd -> Prop, (forall c, detect_cmd c = true -> P c) ->
                     (lo = false -> P FetchOrigin) -> (forall rf s, P (MergeBase rf s)) ->
                     (forall b rf s, P (MergeTree b rf s)) -> Forall (fun c => P (c_cmd c)) tr4).
      { intros P Hd Hf Hmb Hmt.
        eapply (preflight_step_keeps oracle (fun c => P (c_cmd c))); [exact Hmb|exact Hmt| |exact H4].
        destruct Htr3 as [[_ ->] | (Hlo & -> & _)];
          [|apply Forall_app; split; [|repeat constructor; exact (Hf Hlo)]];
          (eapply Forall_impl; [exact HD|]); intros c [Hc _]; auto. }
      assert (Tw : forall P : gitcmd -> Prop, (forall c, detect_cmd c = true -> P c) ->
                     (lo = false -> P FetchOrigin) -> (forall rf s, P (MergeBase rf s)) ->
                     (forall b rf s, P (MergeTree b rf s)) -> (forall rf, P (WorktreeAdd dir rf)) ->
                     P (WorktreeRemove dir) -> (forall c, worktree_cmd c = true -> P c) ->
                     (forall c, sync_cmd c = true -> P c) ->
                     early = None -> Forall (fun c => P (c_cmd c)) tr).
      { intros P Hd Hf Hmb Hmt Ha Hr Hw Hs ->.
        pose proof (T4 P Hd Hf Hmb Hmt) as F4.
        assert (Etr : tr = snd (r, tr)) by reflexivity. rewrite <- Hk in Etr. rewrite Etr.
        eapply (keeps_worktree_phase oracle exists_sync date_now process_cwd (fun c => P (c_cmd c)));
          [intros; apply Ha|apply Hr|intros; apply Hw; assumption|intros; apply Hs; assumption|exact F4]. }
      assert (Hfetch : forall e, (forall h, oracle h (mkCall FetchOrigin root false) = Fail e) ->
                         lo = true).
      { intros e Hf. destruct Htr3 as [[-> _] | (_ & _ & out & Hout)]; [reflexivity|].
        rewrite Hf in Hout. discriminate. }
      split; [|split; [|split]].
      * intros e Hf Hin. exfalso. pose proof (Hfetch e Hf) as ->.
        assert (F : Forall (fun c => c_cmd c <> FetchOrigin) tr).
        { destruct early as [r0|].
          - destruct Hk as [_ ->]. apply (T4 (fun c => c <> FetchOrigin));
              [intros c Hc ->; discriminate|discriminate|discriminate|discriminate].
          - apply (Tw (fun c => c <> FetchOrigin)); try (intros; discriminate);
              try (intros c Hc ->; discriminate); reflexivity. }
        exact (proj1 (List.Forall_forall _ _) F _ Hin eq_refl).
      * intros e Hsync Hr Hin. destruct early as [r0|].
        -- exfalso. destruct Hk as [_ ->].
           assert (F := T4 (fun c => c <> WorktreeRemove dir)
                      ltac:(intros c Hc ->; discriminate) ltac:(discriminate)
                      ltac:(discriminate) ltac:(discriminate)).
           exact (proj1 (List.Forall_forall _ _) F _ Hin eq_refl).
        -- rewrite worktree_phase_cases in Hk. cbv zeta in Hk. fold root dir in Hk.
           rewrite Hsync, Hr in Hk. congruence.
      * intros e Ha Hex. destruct early as [r0|].
        -- exfalso. destruct Hk as [_ ->]. eapply Forall_Exists_false; [|exact Hex].
           apply (T4 (fun c => is_worktree_add c <> true));
             [intros c Hc; destruct c; discriminate|discriminate|discriminate|discriminate].
        -- rewrite worktree_phase_cases in Hk. cbv zeta in Hk. fold root dir in Hk.
           assert (F4 := T4 (fun c => is_worktree_add c <> true)
                      ltac:(intros c Hc; destruct c; discriminate) ltac:(discriminate)
                      ltac:(discriminate) ltac:(discriminate)).
           destruct (exists_sync dir); [destruct (oracle tr4 _) eqn:Erm|];
             rewrite ?Ha in Hk; try congruence.
           exfalso. injection Hk as _ <-. eapply Forall_Exists_false; [|exact Hex].
           apply Forall_app. split; [exact F4|]. repeat constructor. discriminate.
      * intros res -> Hs. destruct early as [r0|].
        -- left. destruct Hk as [[= <-] _]. eapply preflight_step_early. exact H4.
        -- right. rewrite worktree_phase_cases in Hk. cbv zeta in Hk. fold root dir in Hk.
           destruct (exists_sync dir); [destruct (oracle tr4 _)|]; try discriminate;
             (destruct (oracle _ (mkCall (WorktreeAdd dir _) root false)); [|discriminate]);
             lazymatch type of Hk with
             | after_worktree_add _ _ ?s ?p ?y ?l ?rt ?sr ?tg ?ms ?d (?t ++ [?ad]) = _ =>
                 destruct (grows_after_worktree_add oracle process_cwd s p y l rt sr tg ms d (t ++ [ad]))
                   as [dd Ed]
             end;
             rewrite Hk in Ed; simpl in Ed; rewrite Ed;
             apply Exists_app; left; apply Exists_app; right; constructor; reflexivity.
Qed.

End Totality.

(* ------------------------------------------------------------------ *)
(** ** Which commands the options of [mergeBranch] rule out *)

Module Gating.
Import JsString Git TraceProps MonadFacts GitTrace MergeRuns.
Local Open Scope list_scope.

Section Gate.
Variable oracle : trace -> call -> exec_result.
Variable exists_sync : string -> bool.
Variable date_now : N.
Variable process_cwd : string.
Variable P : call -> Prop.

Lemma keeps_bind_dep {A B} (Q : A -> Prop) (m : M A) (k : A -> M B) :
  keeps P m -> yields Q m -> (forall a, Q a -> keeps P (k a)) -> keeps P (bind m k).
Proof.
  intros Hm Hq Hk tr Htr. unfold bind.
  specialize (Hm tr Htr). destruct (m tr) as [[a|e] tr'] eqn:E; simpl in *.
  - eapply Hk; [eapply Hq; exact E | exact Hm].
  - exact Hm.
Qed.

Ltac gate_step :=
  lazymatch goal with
  | |- keeps _ (let _ := _ in _) => cbv zeta
  | |- keeps _ (bind _ _) => apply keeps_bind; [ | intros ? ]
  | |- keeps _ (catch _ _) => apply keeps_catch; [ | intros ? ]
  | |- keeps _ (finally _ _) => apply keeps_finally
  | |- keeps _ (ret _) => apply keeps_ret
  | |- keeps _ (throw _) => apply keeps_throw
  | |- keeps _ (execAsync _ _ _) => apply keeps_execAsync
  | |- keeps _ (execGitSafe _ _ _ _ _) => apply keeps_execGitSafe; intros _
  | |- keeps _ (if ?b then _ else _) => destruct b eqn:?
  | |- keeps _ (match ?x with _ => _ end) => destruct x eqn:?
  end.

Lemma keeps_sync_issued r sync (lo push : bool) root target :
  (forall c, sync_issued sync lo push c = true -> P (mkCall c root false)) ->
  keeps P (sync_step oracle r sync lo push root target).
Proof.
  intros H. unfold sync_step, syncLocalBranchFromCommit, syncLocalBranch, current_branch.
  destruct (success r); simpl; [|apply keeps_ret].
  destruct sync; simpl; [|apply keeps_ret].
  destruct lo, push; repeat gate_step; apply H; reflexivity.
Qed.

Lemma keeps_mergeBranch_gated o :
  let root := workspaceRoot o in
  let dir := merge_dir date_now root (sourceBranch o) in
  let strat := opt_or Squash (mergeStrategy o) in
  let push := opt_or true (autoPush o) in
  let pre := opt_or true (preflight o) in
  let sync := opt_or true (syncLocal o) in
  (localOnly o = None -> P (mkCall (RemoteGetUrl "origin") root false)) ->
  (targetBranch o = None -> forall c, detect_cmd c = true -> P (mkCall c root false)) ->
  (forall lo : bool, (forall b, localOnly o = Some b -> lo = b) ->
     (lo = false -> P (mkCall FetchOrigin root false)) /\
     (pre = true -> forall r s, P (mkCall (MergeBase r s) root false)) /\
     (pre = true -> forall b r s, P (mkCall (MergeTree b r s) root false)) /\
     (forall r, P (mkCall (WorktreeAdd dir r) root false)) /\
     P (mkCall (WorktreeRemove dir) root false) /\
     (forall c, body_cmd strat push lo c = true -> P (mkCall c dir true)) /\
     (forall c, sync_issued sync lo push c = true -> P (mkCall c root false))) ->
  keeps P (mergeBranch oracle exists_sync date_now process_cwd o).
Proof.
  intros root dir strat push pre sync Hr Hd Hlo.
  unfold mergeBranch. cbv zeta. fold root strat push pre sync.
  apply (keeps_bind_dep (fun lo => forall b, localOnly o = Some b -> lo = b)).
  { destruct (localOnly o); [apply keeps_ret|].
    apply keeps_bind; [apply keeps_hasRemote; auto | intros; apply keeps_ret]. }
  { intros tr a tr'. destruct (localOnly o) as [b|]; [|intros _ ? [=]].
    intros [= <-] ? [= <-]. reflexivity. }
  intros lo Hl. destruct (Hlo lo Hl) as (Hf & Hmb & Hmt & Ha & Hrm & Hb & Hs).
  apply keeps_bind; [|intros target].
  { destruct (targetBranch o); [apply keeps_ret|]. apply keeps_detectTargetBranch. auto. }
  apply keeps_bind; [destruct lo; [apply keeps_ret|apply keeps_execAsync; auto]|intros _].
  apply keeps_bind; [|intros early].
  { destruct pre eqn:Ep; [|apply keeps_ret].
    unfold preflight_check. repeat gate_step; auto. }
  destruct early; [apply keeps_ret|].
  unfold worktree_phase, after_worktree_add, merge_body, merge_catch. fold dir.
  repeat gate_step; auto;
    try (apply Hb; simpl; rewrite ?Heqb; reflexivity);
    try (apply keeps_sync_issued; exact Hs).
Qed.

End Gate.

Ltac gate_contra :=
  repeat match goal with H : _ = true |- _ => revert H end;
  repeat match goal with
         | |- context [opt_or _ ?x] =>
           lazymatch x with Some _ => fail | None => fail | _ => destruct x as [[]|] end
         end;
  simpl; try (intros; discriminate);
  repeat match goal with b : bool |- _ => destruct b end;
  simpl; intros; discriminate.

Ltac gate_close :=
  repeat match goal with
  | |- _ /\ _ => split
  | |- _ -> _ => intro
  | |- forall _, _ => intro
  end;
  cbn [localOnly targetBranch autoPush preflight syncLocal mergeStrategy] in *;
  first [ reflexivity | exact I | discriminate | solve [congruence]
        | (match goal with c : gitcmd |- _ => destruct c end;
           first [reflexivity | exact I | discriminate | gate_contra]) ].

(** X1: with [localOnly: true], [mergeBranch] never talks to the remote:
    no [git fetch origin], no push, no [git fetch origin <target>:<target>]. *)
Theorem mergeBranch_local_only_offline oracle exists_sync date_now process_cwd o
  (Hlo : localOnly o = Some true) :
  Forall (fun c => remote_cmd (c_cmd c) = false)
    (snd (mergeBranch oracle exists_sync date_now process_cwd o [])).
Proof.
  apply keeps_mergeBranch_gated; [intros E; rewrite Hlo in E; discriminate|
    intros _ c Hc; destruct c; try discriminate; reflexivity| |constructor].
  intros lo Hl. specialize (Hl true Hlo). subst lo.
  gate_close.
Qed.

Lemma mergeBranch_local_only_offline_witness :
  let o := mkOptions Scenarios.root "feature/x" None None None None None None (Some true) in
  localOnly o = Some true /\
  Forall (fun c => remote_cmd (c_cmd c) = false)
    (snd (mergeBranch Scenarios.clean_repo Scenarios.no_leftover Scenarios.clock Scenarios.cwd o [])).
Proof.
  intros o. split; [reflexivity|].
  exact (mergeBranch_local_only_offline Scenarios.clean_repo Scenarios.no_leftover Scenarios.clock
           Scenarios.cwd o eq_refl).
Defined.

(** X2: each disabled option removes its commands from the run:
    [autoPush: false] means no push, [preflight: false] no [merge-base] and
    no [merge-tree], [syncLocal: false] no local sync command, and with both
    [localOnly] and [targetBranch] given no detection probe runs. *)
Theorem mergeBranch_skips_disabled_steps oracle exists_sync date_now process_cwd o :
  let tr := snd (mergeBranch oracle exists_sync date_now process_cwd o []) in
  (autoPush o = Some false -> Forall (fun c => is_push (c_cmd c) = false) tr) /\
  (preflight o = Some false ->
     Forall (fun c => forall r s, c_cmd c <> MergeBase r s) tr /\
     Forall (fun c => is_merge_tree (c_cmd c) = false) tr) /\
  (syncLocal o = Some false -> Forall (fun c => sync_cmd (c_cmd c) = false) tr) /\
  (localOnly o <> None -> targetBranch o <> None ->
     Forall (fun c => detect_cmd (c_cmd c) = false) tr).
Proof.
  intros tr. subst tr. destruct o as [root src tgt strat push msg pre sync lo0]; simpl.
  split; [|split; [|split]].
  - intros ->. apply keeps_mergeBranch_gated; [ | | | apply List.Forall_nil]; gate_close.
  - intros ->. split; (apply keeps_mergeBranch_gated; [ | | | apply List.Forall_nil]); gate_close.
  - intros ->. apply keeps_mergeBranch_gated; [ | | | apply List.Forall_nil]; gate_close.
  - intros Hl Ht. apply keeps_mergeBranch_gated; [ | | | apply List.Forall_nil]; gate_close.
Qed.

(** X3: the squash strategy never runs [merge --no-ff] or [merge --abort];
    the merge strategy never runs [merge --squash], [commit] or
    [reset --hard]. *)
Theorem mergeBranch_strategy_commands oracle exists_sync date_now process_cwd o :
  let tr := snd (mergeBranch oracle exists_sync date_now process_cwd o []) in
  (opt_or Squash (mergeStrategy o) = Squash ->
     Forall (fun c => match c_cmd c with MergeNoFF _ _ | MergeAbort => False | _ => True end) tr) /\
  (opt_or Squash (mergeStrategy o) = MergeNoFFStrategy ->
     Forall (fun c => match c_cmd c with MergeSquash _ | Commit _ | ResetHard => False | _ => True end) tr).
Proof.
  intros tr. subst tr. destruct o as [root src tgt strat push msg pre sync lo0]; simpl.
  split; intros Hs; (apply keeps_mergeBranch_gated; [ | | | apply List.Forall_nil]); simpl;
    rewrite ?Hs; gate_close.
Qed.

End Gating.

(* ------------------------------------------------------------------ *)
(** ** Removal of the temporary worktree *)

Module Cleanup.
Import JsString Git TraceProps MonadFacts GitTrace MergeRuns.
Local Open Scope list_scope.

(** The first element satisfying [Q] of a list whose elements after it
    do not satisfy [Q] either. *)
Lemma split_unique {A} (Q : A -> Prop) l1 a l2 l3 b l4 :
  Forall (fun x => ~ Q x) l3 -> Forall (fun x => ~ Q x) l4 -> Q a -> Q b ->
  l1 ++ a :: l2 = l3 ++ b :: l4 -> l1 = l3 /\ a = b /\ l2 = l4.
Proof.
  revert l1. induction l3 as [|y l3 IH]; intros [|x l1] H3 H4 Ha Hb E; simpl in E.
  - injection E as -> ->. auto.
  - injection E as -> E. exfalso. rewrite <- E in H4.
    apply Forall_app in H4 as [_ H4]. inversion H4. contradiction.
  - injection E as -> _. inversion H3. contradiction.
  - injection E as -> E. inversion H3; subst.
    destruct (IH l1) as (-> & -> & ->); auto.
Qed.


Lemma appends_ret P {A} (a : A) : appends P (ret a).
Proof. intros tr. exists []. rewrite app_nil_r. split; [reflexivity|constructor]. Qed.

Lemma appends_throw P {A} e : appends P (@throw A e).
Proof. intros tr. exists []. rewrite app_nil_r. split; [reflexivity|constructor]. Qed.

Lemma appends_run oracle P c : P c -> appends P (run oracle c).
Proof.
  intros Hc tr. exists [c]. unfold run. split; [destruct (oracle tr c); reflexivity|].
  repeat constructor. exact Hc.
Qed.

Lemma appends_bind P {A B} (m : M A) (k : A -> M B) :
  appends P m -> (forall a, appends P (k a)) -> appends P (bind m k).
Proof.
  intros Hm Hk tr. unfold bind. destruct (Hm tr) as (d1 & E1 & F1).
  destruct (m tr) as [[a|e] tr1]; simpl in E1; subst tr1.
  - destruct (Hk a (tr ++ d1)) as (d2 & E2 & F2). exists (d1 ++ d2).
    rewrite E2, <- app_assoc. split; [reflexivity|]. apply Forall_app. auto.
  - exists d1. auto.
Qed.

Lemma appends_catch P {A} (m : M A) h :
  appends P m -> (forall e, appends P (h e)) -> appends P (catch m h).
Proof.
  intros Hm Hh tr. unfold catch. destruct (Hm tr) as (d1 & E1 & F1).
  destruct (m tr) as [[a|e] tr1]; simpl in E1; subst tr1.
  - exists d1. auto.
  - destruct (Hh e (tr ++ d1)) as (d2 & E2 & F2). exists (d1 ++ d2).
    rewrite E2, <- app_assoc. split; [reflexivity|]. apply Forall_app. auto.
Qed.

Lemma appends_finally P {A} (m : M A) f : appends P m -> appends P f -> appends P (finally m f).
Proof.
  intros Hm Hf tr. unfold finally. destruct (Hm tr) as (d1 & E1 & F1).
  destruct (m tr) as [r tr1]; simpl in E1; subst tr1.
  destruct (Hf (tr ++ d1)) as (d2 & E2 & F2).
  destruct (f (tr ++ d1)) as [[u|e] tr2]; simpl in E2; subst tr2; exists (d1 ++ d2);
    rewrite <- app_assoc; split; try reflexivity; apply Forall_app; auto.
Qed.

Ltac appends_step :=
  lazymatch goal with
  | |- appends _ (let _ := _ in _) => cbv zeta
  | |- appends _ (bind _ _) => apply appends_bind; [ | intros ? ]
  | |- appends _ (catch _ _) => apply appends_catch; [ | intros ? ]
  | |- appends _ (finally _ _) => apply appends_finally
  | |- appends _ (ret _) => apply appends_ret
  | |- appends _ (throw _) => apply appends_throw
  | |- appends _ (execAsync _ _ _) => apply appends_run
  | |- appends _ (execGitSafe _ _ _ _ _) => unfold execGitSafe
  | |- appends _ (run _ _) => apply appends_run
  | |- appends _ (if ?b then _ else _) => destruct b
  | |- appends _ (match ?x with _ => _ end) => destruct x
  end.

Section Clean.
Variable oracle : trace -> call -> exec_result.
Variable process_cwd : string.

Lemma cleanup_runs root dir tr :
  catch (execAsync oracle (WorktreeRemove dir) root ;;; ret tt) (fun _ => ret tt) tr =
  (inl tt, tr ++ [mkCall (WorktreeRemove dir) root false]).
Proof.
  unfold catch, bind, execAsync, run, ret. destruct (oracle tr _); reflexivity.
Qed.

(** After [git worktree add], the finally block removes the worktree; and
    no further [git worktree add] is issued. *)
Lemma after_worktree_add_removes strat push sync lo root src target message dir tr1 :
  exists d1 d2,
    snd (after_worktree_add oracle process_cwd strat push sync lo root src target message dir tr1)
    = tr1 ++ d1 ++ mkCall (WorktreeRemove dir) root false :: d2 /\
    Forall (fun x => is_worktree_add (c_cmd x) <> true) (d1 ++ mkCall (WorktreeRemove dir) root false :: d2).
Proof.
  set (P := fun x : call => is_worktree_add (c_cmd x) <> true).
  unfold after_worktree_add. unfold bind at 1. unfold finally.
  set (body := catch _ _).
  assert (Gb : appends P body).
  { subst body; unfold merge_body, merge_catch; repeat appends_step;
      unfold P; simpl; discriminate. }
  destruct (Gb tr1) as (d1 & E1 & F1). destruct (body tr1) as [r trA]. simpl in E1. subst trA.
  rewrite cleanup_runs.
  assert (Frm : P (mkCall (WorktreeRemove dir) root false)) by (unfold P; discriminate).
  destruct r as [r|e].
  - assert (Gs : appends P (sync_step oracle r sync lo push root target ;;; ret r)).
    { apply appends_bind; [unfold sync_step, syncLocalBranchFromCommit, syncLocalBranch,
        current_branch; repeat appends_step | intros; apply appends_ret];
        unfold P; simpl; discriminate. }
    destruct (Gs ((tr1 ++ d1) ++ [mkCall (WorktreeRemove dir) root false])) as (d2 & E2 & F2).
    rewrite E2. exists d1, d2. rewrite <- !app_assoc. split; [reflexivity|].
    apply Forall_app. split; [exact F1|]. constructor; assumption.
  - exists d1, []. simpl. rewrite <- !app_assoc. split; [reflexivity|].
    apply Forall_app. split; [exact F1|]. repeat constructor. exact Frm.
Qed.

End Clean.
End Cleanup.

Module Cleanup2.
Import JsString Git TraceProps MonadFacts GitTrace MergeRuns Cleanup.
Local Open Scope list_scope.

Lemma no_member {A} (Q : A -> Prop) l pre a post :
  Forall (fun x => ~ Q x) l -> l = pre ++ a :: post -> Q a -> False.
Proof.
  intros F -> Ha. apply Forall_app in F as [_ F]. inversion F. contradiction.
Qed.

(** X4: once [git worktree add] of the temporary worktree has succeeded,
    a later [git worktree remove --force] of the same directory is always
    issued in the workspace root, whatever the merge does. *)
Theorem mergeBranch_always_removes_worktree oracle exists_sync date_now process_cwd o :
  let root := workspaceRoot o in
  let dir := merge_dir date_now root (sourceBranch o) in
  forall pre rf post,
    snd (mergeBranch oracle exists_sync date_now process_cwd o []) =
      pre ++ mkCall (WorktreeAdd dir rf) root false :: post ->
    (exists out, oracle pre (mkCall (WorktreeAdd dir rf) root false) = Ok out) ->
    In (mkCall (WorktreeRemove dir) root false) post.
Proof.
  intros root dir pre rf post E Hok.
  set (Qa := fun x : call => is_worktree_add (c_cmd x) = true).
  set (addX := mkCall (WorktreeAdd dir rf) root false).
  set (rm := mkCall (WorktreeRemove dir) root false).
  fold addX in E, Hok. fold rm.
  assert (QaX : Qa addX) by reflexivity.
  destruct (mergeBranch oracle exists_sync date_now process_cwd o []) as [r tr'] eqn:Em.
  simpl in E.
  destruct (mergeBranch_run oracle exists_sync date_now process_cwd o r tr' Em)
    as (lo & target & tr2 & F2 & [(_ & e & _ & _ & ->) | (tr3 & early & tr4 & H3 & H4 & H)]).
  - exfalso. refine (no_member Qa _ _ _ _ _ E QaX). apply Forall_app; split;
      [eapply Forall_impl; [exact F2|]; intros c [Hc _]; unfold Qa; destruct (c_cmd c); discriminate
      | repeat constructor; discriminate].
  - assert (F3 : Forall (fun x => ~ Qa x) tr3).
    { assert (F2' : Forall (fun x => ~ Qa x) tr2).
      { eapply Forall_impl; [exact F2|]. intros c [Hc _]. unfold Qa. destruct (c_cmd c); discriminate. }
      destruct H3 as [(_ & ->) | (_ & -> & _)]; [exact F2'|].
      apply Forall_app; split; [exact F2'|]. repeat constructor. discriminate. }
    assert (F4 : Forall (fun x => ~ Qa x) tr4).
    { eapply preflight_step_keeps; [| | exact F3 | exact H4]; intros; unfold Qa; discriminate. }
    destruct early as [r0|].
    { destruct H as [_ ->]. exfalso. exact (no_member Qa _ _ _ _ F4 E QaX). }
    rewrite worktree_phase_cases in H. cbv zeta in H. fold root dir rm in H.
    set (add := mkCall (WorktreeAdd dir (if lo then target else ("origin/" ++ target)%string)) root false) in H.
    assert (G : forall tr1, Forall (fun x => ~ Qa x) tr1 ->
      snd (match oracle tr1 add with
           | Fail e => (inr e, tr1 ++ [add])
           | Ok _ => after_worktree_add oracle process_cwd (opt_or Squash (mergeStrategy o))
                       (opt_or true (autoPush o)) (opt_or true (syncLocal o)) lo root
                       (sourceBranch o) target
                       (opt_or (default_message (opt_or Squash (mergeStrategy o)) (sourceBranch o) target)
                          (commitMessage o)) dir (tr1 ++ [add])
           end) = pre ++ addX :: post -> In rm post).
    { intros tr1 F1 Ed. assert (Qadd : Qa add) by reflexivity.
      destruct (oracle tr1 add) eqn:Eo.
      - destruct (after_worktree_add_removes oracle process_cwd (opt_or Squash (mergeStrategy o))
          (opt_or true (autoPush o)) (opt_or true (syncLocal o)) lo root (sourceBranch o) target
          (opt_or (default_message (opt_or Squash (mergeStrategy o)) (sourceBranch o) target)
             (commitMessage o)) dir (tr1 ++ [add])) as (d1 & d2 & Ea & Fa).
        rewrite Ea, <- app_assoc in Ed. simpl in Ed.
        destruct (split_unique Qa pre addX post tr1 add (d1 ++ rm :: d2) F1 Fa QaX Qadd (eq_sym Ed))
          as (_ & _ & ->).
        apply in_or_app. right. left. reflexivity.
      - simpl in Ed.
        destruct (split_unique Qa pre addX post tr1 add [] F1 (List.Forall_nil _) QaX Qadd (eq_sym Ed))
          as (-> & <- & _).
        destruct Hok as [out Hok]. congruence. }
    destruct (exists_sync dir).
    + destruct (oracle tr4 rm) eqn:Er.
      * apply (G (tr4 ++ [rm])); [|rewrite H; exact E].
        apply Forall_app; split; [exact F4|]. repeat constructor. discriminate.
      * exfalso. injection H as _ <-. refine (no_member Qa _ _ _ _ _ E QaX).
        apply Forall_app; split; [exact F4|]. repeat constructor. discriminate.
    + apply (G tr4 F4). rewrite H. exact E.
Qed.

Lemma mergeBranch_always_removes_worktree_witness :
  let o := Scenarios.defaults "feature/x" in
  let tr := snd (mergeBranch Scenarios.clean_repo Scenarios.no_leftover Scenarios.clock
                   Scenarios.cwd o []) in
  let dir := merge_dir Scenarios.clock (workspaceRoot o) (sourceBranch o) in
  (tr = firstn 6 tr ++ mkCall (WorktreeAdd dir "origin/main") (workspaceRoot o) false :: skipn 7 tr /\
   exists out, Scenarios.clean_repo (firstn 6 tr)
                 (mkCall (WorktreeAdd dir "origin/main") (workspaceRoot o) false) = Ok out) /\
  In (mkCall (WorktreeRemove dir) (workspaceRoot o) false) (skipn 7 tr).
Proof.
  intros o tr dir.
  assert (E : tr = firstn 6 tr ++ mkCall (WorktreeAdd dir "origin/main") (workspaceRoot o) false
                   :: skipn 7 tr) by (vm_compute; reflexivity).
  assert (Hok : exists out, Scenarios.clean_repo (firstn 6 tr)
                  (mkCall (WorktreeAdd dir "origin/main") (workspaceRoot o) false) = Ok out)
    by (exists ""; reflexivity).
  split; [split; [exact E | exact Hok]|].
  exact (mergeBranch_always_removes_worktree Scenarios.clean_repo Scenarios.no_leftover
           Scenarios.clock Scenarios.cwd o (firstn 6 tr) "origin/main" (skipn 7 tr) E Hok).
Defined.
End Cleanup2.

(* ------------------------------------------------------------------ *)
(** ** The results [mergeBranch] returns *)

Module ConflictParse.
Import JsString Git TraceProps PathFacts.
Local Open Scope list_scope.

Lemma match_all_nonempty fuel p s :
  Forall (fun x => x <> EmptyString) (match_all_prefix_line_aux fuel p s).
Proof.
  revert s. induction fuel as [|fuel IH]; intros s; simpl; [constructor|].
  destruct (starts_with p s && negb (String.eqb (take_line (drop (String.length p) s)) EmptyString))
    eqn:C.
  - apply andb_true_iff in C as [_ C]. apply negb_true_iff, String.eqb_neq in C.
    constructor; [exact C | apply IH].
  - destruct s; [constructor | apply IH].
Qed.

Lemma take_line_idem s : take_line (take_line s) = take_line s.
Proof.
  induction s as [|c s IH]; simpl; [reflexivity|].
  destruct (Ascii.eqb c newline) eqn:E; simpl; [reflexivity|]. rewrite E, IH. reflexivity.
Qed.

Lemma conflict_matches_shape fuel s : Forall conflict_shape (conflict_matches_aux fuel s).
Proof.
  revert s. induction fuel as [|fuel IH]; intros s; simpl; [constructor|].
  match goal with |- Forall _ (if ?b then _ else _) => destruct b eqn:C end.
  - apply andb_true_iff in C as [_ C]. apply negb_true_iff, String.eqb_neq in C.
    constructor; [|apply IH].
    eexists _, _. split; [reflexivity|]. split; [exact C | apply take_line_idem].
  - destruct s; [constructor | apply IH].
Qed.

Lemma match_in_end_app p cap :
  cap <> EmptyString -> take_line cap = cap ->
  exists x, match_in_end (p ++ "in " ++ cap)%string = Some x /\ x <> EmptyString.
Proof.
  intros Hne Ht. induction p as [|c p IH].
  - simpl. rewrite Ht, String.eqb_refl. destruct (String.eqb cap EmptyString) eqn:E.
    + apply String.eqb_eq in E. contradiction.
    + simpl. eauto.
  - cbn [String.append]. unfold match_in_end; fold match_in_end.
    match goal with |- exists _, (if ?b then _ else _) = _ /\ _ => destruct b eqn:C end.
    + apply andb_true_iff in C as [C _]. apply andb_true_iff in C as [_ C].
      apply negb_true_iff, String.eqb_neq in C. eauto.
    + exact IH.
Qed.

Lemma conflict_file_nonempty m :
  conflict_shape m -> opt_or EmptyString (match_in_end m) <> EmptyString.
Proof.
  intros (inside & cap & -> & Hne & Ht).
  replace (conflict_head ++ inside ++ "): Merge conflict " ++ "in " ++ cap)%string
    with (((conflict_head ++ inside) ++ "): Merge conflict ") ++ "in " ++ cap)%string
    by (rewrite !str_app_assoc; reflexivity).
  destruct (match_in_end_app ((conflict_head ++ inside) ++ "): Merge conflict ") cap Hne Ht)
    as (x & E & Hx).
  rewrite E. exact Hx.
Qed.
Lemma filter_nonempty (l : list string) :
  Forall (fun f => f <> EmptyString) (List.filter (fun f => negb (String.eqb f EmptyString)) l).
Proof.
  apply List.Forall_forall. intros f Hf. apply filter_In in Hf as [_ Hf].
  apply negb_true_iff, String.eqb_neq in Hf. exact Hf.
Qed.

Lemma nonempty_literal m : m <> EmptyString -> exists m', Some m = Some m' /\ m' <> EmptyString.
Proof. eauto. Qed.

End ConflictParse.

Module Shape.
Import JsString Git TraceProps MonadFacts GitTrace MergeRuns ConflictParse.
Local Open Scope list_scope.

Lemma yields_ret {A} (Q : A -> Prop) a : Q a -> yields Q (ret a).
Proof. intros Ha tr b tr' E. injection E as <- _. exact Ha. Qed.

Lemma yields_throw {A} (Q : A -> Prop) e : yields Q (throw e).
Proof. intros tr b tr' E. discriminate. Qed.

Lemma yields_bind {A B} (Q : A -> Prop) (Q' : B -> Prop) (m : M A) (k : A -> M B) :
  yields Q m -> (forall a, Q a -> yields Q' (k a)) -> yields Q' (bind m k).
Proof.
  intros Hm Hk tr b tr'. unfold bind. destruct (m tr) as [[a|e] tr1] eqn:E; [|discriminate].
  exact (Hk a (Hm tr a tr1 E) tr1 b tr').
Qed.

Lemma yields_catch {A} (Q : A -> Prop) (m : M A) h :
  yields Q m -> (forall e, yields Q (h e)) -> yields Q (catch m h).
Proof.
  intros Hm Hh tr b tr'. unfold catch. destruct (m tr) as [[a|e] tr1] eqn:E.
  - intros [= <- _]. exact (Hm tr a tr1 E).
  - apply Hh.
Qed.

Lemma yields_finally {A} (Q : A -> Prop) (m : M A) f : yields Q m -> yields Q (finally m f).
Proof.
  intros Hm tr b tr'. unfold finally. destruct (m tr) as [r tr1] eqn:E.
  destruct (f tr1) as [[u|e] tr2]; [|discriminate]. intros [= -> _]. exact (Hm tr b tr1 E).
Qed.

Lemma yields_true {A} (m : M A) : yields (fun _ => True) m.
Proof. intros ? ? ? ?. exact I. Qed.

Section Results.
Variable oracle : trace -> call -> exec_result.
Variable exists_sync : string -> bool.
Variable date_now : N.
Variable process_cwd : string.

Lemma yields_merge_catch strat root dir e :
  yields well_formed (merge_catch oracle process_cwd strat root dir e).
Proof.
  unfold merge_catch. cbv zeta. set (output := output_of e).
  destruct (includes output "CONFLICT" || includes output "Automatic merge failed").
  - apply (yields_bind (fun _ => True)); [apply yields_true|]. intros _ _. apply yields_ret.
    unfold well_formed; simpl. split; [reflexivity|].
    split; [apply nonempty_literal; discriminate|].
    intros fs Hfs. split; [reflexivity|].
    destruct (conflict_matches output) as [|m ms] eqn:Em; [discriminate|].
    injection Hfs as <-.
    assert (Hm : conflict_shape m).
    { assert (F := conflict_matches_shape (S (String.length output)) output).
      unfold conflict_matches in Em. rewrite Em in F. inversion F; assumption. }
    split.
    + cbn [map List.filter]. apply conflict_file_nonempty in Hm.
      apply String.eqb_neq in Hm. rewrite Hm. discriminate.
    + exact (filter_nonempty (map (fun m => opt_or EmptyString (match_in_end m)) (m :: ms))).
  - apply yields_ret. unfold well_formed; simpl. split; [reflexivity|].
    split; [|intros fs Hfs; discriminate].
    apply nonempty_literal. destruct (String.eqb output EmptyString) eqn:E.
    + discriminate.
    + apply String.eqb_neq in E. exact E.
Qed.

Lemma yields_after_worktree_add strat push sync lo root src target message dir :
  yields well_formed
    (after_worktree_add oracle process_cwd strat push sync lo root src target message dir).
Proof.
  unfold after_worktree_add. apply (yields_bind well_formed).
  - apply yields_finally, yields_catch; [|apply yields_merge_catch].
    unfold merge_body. apply (yields_bind (fun _ => True)); [apply yields_true|]. intros h _.
    apply (yields_bind (fun _ => True)); [apply yields_true|]. intros _ _. apply yields_ret.
    unfold well_formed; simpl. repeat split; discriminate.
  - intros r Hr. apply (yields_bind (fun _ => True)); [apply yields_true|]. intros _ _.
    apply yields_ret. exact Hr.
Qed.

Lemma yields_preflight_check lo root target src :
  yields (fun o => match o with Some r => well_formed r | None => True end)
    (preflight_check oracle lo root target src).
Proof.
  unfold preflight_check. cbv zeta. apply yields_catch; [|intros; apply yields_ret; exact I].
  apply (yields_bind (fun _ => True)); [apply yields_true|]. intros mb _.
  apply (yields_bind (fun _ => True)); [apply yields_true|]. intros [out|] _; [|apply yields_ret; exact I].
  destruct (includes out "<<<<<<<"); apply yields_ret; [|exact I].
  unfold well_formed, preflight_conflict; simpl. split; [reflexivity|].
  split; [apply nonempty_literal; discriminate|].
  intros fs Hfs. split; [reflexivity|].
  destruct (match_all_prefix_line "+++ b/" out) as [|f fs'] eqn:E; [discriminate|].
  injection Hfs as <-. split; [discriminate|].
  rewrite <- E. apply match_all_nonempty.
Qed.

Lemma yields_worktree_phase strat push sync lo root src target message :
  yields well_formed
    (worktree_phase oracle exists_sync date_now process_cwd strat push sync lo root src target message).
Proof.
  unfold worktree_phase. cbv zeta.
  apply (yields_bind (fun _ => True)); [apply yields_true|]. intros _ _.
  apply (yields_bind (fun _ => True)); [apply yields_true|]. intros _ _.
  apply yields_after_worktree_add.
Qed.
End Results.

(** X5: every result [mergeBranch] returns is well formed: a success has a
    commit hash, no conflict flag, no error and no file list; a failure has
    no hash and a non-empty error, and a file list only with the conflict
    flag, non-empty and without empty names. *)
Theorem mergeBranch_result_well_formed oracle exists_sync date_now process_cwd o tr r tr' :
  mergeBranch oracle exists_sync date_now process_cwd o tr = (inl r, tr') -> well_formed r.
Proof.
  revert tr r tr'. fold (yields well_formed (mergeBranch oracle exists_sync date_now process_cwd o)).
  unfold mergeBranch. cbv zeta.
  apply (yields_bind (fun _ => True)); [apply yields_true|]. intros lo _.
  apply (yields_bind (fun _ => True)); [apply yields_true|]. intros target _.
  apply (yields_bind (fun _ => True)); [apply yields_true|]. intros _ _.
  apply (yields_bind (fun o => match o with Some r => well_formed r | None => True end)).
  - destruct (opt_or true (preflight o)); [apply yields_preflight_check|apply yields_ret; exact I].
  - intros [r|] Hr; [apply yields_ret; exact Hr|apply yields_worktree_phase].
Qed.

Lemma mergeBranch_result_well_formed_witness :
  let R := mkResult false None true (Some "Pre-flight: merge conflicts detected")
             (Some ["src/app.ts"]) in
  let o := Scenarios.defaults "feature/x" in
  let run := mergeBranch Scenarios.conflicting_repo Scenarios.no_leftover Scenarios.clock
               Scenarios.cwd o in
  run [] = (inl R, snd (run [])) /\ well_formed R.
Proof.
  intros R o run.
  assert (E : run [] = (inl R, snd (run []))) by (vm_compute; reflexivity).
  split; [exact E|].
  exact (mergeBranch_result_well_formed Scenarios.conflicting_repo Scenarios.no_leftover
           Scenarios.clock Scenarios.cwd o [] R (snd (run [])) E).
Defined.
End Shape.

(* ------------------------------------------------------------------ *)
(** ** Independence from the outcome of [git push] *)

Module PushFailure.
Import JsString Git TraceProps MonadFacts.
Local Open Scope list_scope.

Lemma agree_ret {A} (a : A) : agree (ret a) (ret a).
Proof. intros tr. reflexivity. Qed.

Lemma agree_throw {A} e : agree (@throw A e) (throw e).
Proof. intros tr. reflexivity. Qed.

Lemma agree_bind {A B} (m1 m2 : M A) (k1 k2 : A -> M B) :
  agree m1 m2 -> (forall a, agree (k1 a) (k2 a)) -> agree (bind m1 k1) (bind m2 k2).
Proof.
  intros Hm Hk tr. unfold bind. rewrite Hm. destruct (m2 tr) as [[a|e] tr1]; [apply Hk|reflexivity].
Qed.

Lemma agree_catch {A} (m1 m2 : M A) h1 h2 :
  agree m1 m2 -> (forall e, agree (h1 e) (h2 e)) -> agree (catch m1 h1) (catch m2 h2).
Proof.
  intros Hm Hh tr. unfold catch. rewrite Hm. destruct (m2 tr) as [[a|e] tr1]; [reflexivity|apply Hh].
Qed.

Lemma agree_finally {A} (m1 m2 : M A) f1 f2 :
  agree m1 m2 -> agree f1 f2 -> agree (finally m1 f1) (finally m2 f2).
Proof.
  intros Hm Hf tr. unfold finally. rewrite Hm. destruct (m2 tr) as [r tr1]. rewrite Hf. reflexivity.
Qed.

Section Push.
Variables oracle1 oracle2 : trace -> call -> exec_result.
Variable exists_sync : string -> bool.
Variable date_now : N.
Variable process_cwd : string.
Hypothesis Hsame : forall tr c, is_push (c_cmd c) = false -> oracle1 tr c = oracle2 tr c.

Lemma agree_run c : is_push (c_cmd c) = false -> agree (run oracle1 c) (run oracle2 c).
Proof. intros Hc tr. unfold run. rewrite (Hsame tr c Hc). reflexivity. Qed.

(** The push of step 6: its outcome is caught, so only the call is kept. *)
Lemma agree_push_step {B} target dir root (k : M B) :
  agree (catch (execGitSafe oracle1 process_cwd (Push target) dir root) (fun _ => ret "") ;;; k)
        (catch (execGitSafe oracle2 process_cwd (Push target) dir root) (fun _ => ret "") ;;; k).
Proof.
  intros tr. unfold bind, catch, execGitSafe, run, throw, ret.
  destruct (String.eqb _ _); [reflexivity|].
  destruct (oracle1 tr _); destruct (oracle2 tr _); reflexivity.
Qed.

Ltac agree_step :=
  lazymatch goal with
  | |- agree (let _ := _ in _) _ => cbv zeta
  | |- agree (bind (catch (execGitSafe _ _ (Push _) _ _) _) _) _ => apply agree_push_step
  | |- agree (bind (if ?b then _ else _) _) _ => destruct b
  | |- agree (bind _ _) _ => apply agree_bind; [ | intros ? ]
  | |- agree (catch _ _) _ => apply agree_catch; [ | intros ? ]
  | |- agree (finally _ _) _ => apply agree_finally
  | |- agree (ret _) _ => apply agree_ret
  | |- agree (throw _) _ => apply agree_throw
  | |- agree (execAsync _ _ _) _ => apply agree_run; reflexivity
  | |- agree (execGitSafe _ _ _ _ _) _ =>
      unfold execGitSafe; destruct (String.eqb _ _); [apply agree_throw | apply agree_run; reflexivity]
  | |- agree (if ?b then _ else _) _ => destruct b
  | |- agree (match ?x with _ => _ end) _ => destruct x
  end.

Lemma agree_try_local names root :
  agree (try_local oracle1 names root) (try_local oracle2 names root).
Proof.
  induction names as [|n names IH]; simpl; [apply agree_ret|].
  unfold or_else, try_verify, attempt. repeat agree_step. exact IH.
Qed.

Lemma agree_detectTargetBranch root :
  agree (detectTargetBranch oracle1 root) (detectTargetBranch oracle2 root).
Proof.
  unfold detectTargetBranch, hasRemote, or_else, try_origin_head, try_verify, attempt.
  repeat agree_step; apply agree_try_local.
Qed.

Lemma agree_after_worktree_add strat push sync lo root src target message dir :
  agree (after_worktree_add oracle1 process_cwd strat push sync lo root src target message dir)
        (after_worktree_add oracle2 process_cwd strat push sync lo root src target message dir).
Proof.
  unfold after_worktree_add, merge_body, merge_catch, sync_step, syncLocalBranchFromCommit,
    syncLocalBranch, current_branch.
  repeat agree_step.
Qed.

(** X6: two environments that differ only in how [git push] ends give the
    same run of [mergeBranch]: same result, same commands. *)
Theorem mergeBranch_push_outcome_irrelevant o :
  agree (mergeBranch oracle1 exists_sync date_now process_cwd o)
        (mergeBranch oracle2 exists_sync date_now process_cwd o).
Proof.
  unfold mergeBranch, hasRemote, preflight_check, worktree_phase.
  repeat agree_step; try apply agree_detectTargetBranch; apply agree_after_worktree_add.
Qed.
End Push.

Lemma mergeBranch_push_outcome_irrelevant_witness :
  (forall tr c, is_push (c_cmd c) = false -> Scenarios.clean_repo tr c = PushScenario.push_rejected tr c) /\
  agree (mergeBranch Scenarios.clean_repo Scenarios.no_leftover Scenarios.clock Scenarios.cwd
           (Scenarios.defaults "feature/x"))
        (mergeBranch PushScenario.push_rejected Scenarios.no_leftover Scenarios.clock Scenarios.cwd
           (Scenarios.defaults "feature/x")).
Proof.
  assert (H : forall tr c, is_push (c_cmd c) = false ->
                Scenarios.clean_repo tr c = PushScenario.push_rejected tr c).
  { intros tr c Hc. unfold PushScenario.push_rejected. destruct (c_cmd c); try discriminate; reflexivity. }
  split; [exact H|].
  exact (mergeBranch_push_outcome_irrelevant Scenarios.clean_repo PushScenario.push_rejected
           Scenarios.no_leftover Scenarios.clock Scenarios.cwd H (Scenarios.defaults "feature/x")).
Defined.
End PushFailure.

(* ------------------------------------------------------------------ *)
(** ** What [detectTargetBranch] resolves to *)

Module Detect.
Import JsString Git TraceProps MonadFacts GitTrace MergeRuns Cleanup ConflictParse Shape.
Local Open Scope list_scope.

Lemma match_prefix_line_line p s x :
  match_prefix_line p s = Some x -> x <> EmptyString /\ take_line x = x.
Proof.
  induction s as [|c s IH]; simpl; intros E.
  - destruct (starts_with p "" && _) eqn:C; [|discriminate].
    injection E as <-. apply andb_true_iff in C as [_ C].
    apply negb_true_iff, String.eqb_neq in C. split; [exact C | apply take_line_idem].
  - match type of E with (if ?b then _ else _) = _ => destruct b eqn:C end.
    + injection E as <-. apply andb_true_iff in C as [_ C].
      apply negb_true_iff, String.eqb_neq in C. split; [exact C | apply take_line_idem].
    + exact (IH E).
Qed.

Section Det.
Variable oracle : trace -> call -> exec_result.

Lemma appends_try_local names root :
  appends (probe root) (try_local oracle names root).
Proof.
  induction names as [|n names IH]; simpl; [apply appends_ret|].
  unfold or_else, try_verify, attempt.
  repeat appends_step; try exact IH; repeat split.
Qed.

Lemma yields_try_local names root :
  Forall (fun n => n <> EmptyString /\ take_line n = n) names ->
  yields line_name (try_local oracle names root).
Proof.
  induction names as [|n names IH]; simpl; intros F; [apply yields_ret; exact I|].
  inversion F as [|? ? Hn Hns]; subst.
  unfold or_else, try_verify, attempt.
  apply (yields_bind line_name).
  - apply yields_catch; [|intros; apply yields_ret; exact I].
    apply (yields_bind (fun _ => True)); [apply yields_true|]. intros _ _.
    apply yields_ret. exact Hn.
  - intros [b|] Hb; [apply yields_ret; exact Hb | exact (IH Hns)].
Qed.

Lemma yields_or_else m1 m2 :
  yields line_name m1 -> yields line_name m2 -> yields line_name (or_else m1 m2).
Proof.
  intros H1 H2. unfold or_else. apply (yields_bind line_name); [exact H1|].
  intros [b|] Hb; [apply yields_ret; exact Hb | exact H2].
Qed.

Lemma yields_try_verify ref n root :
  n <> EmptyString -> take_line n = n -> yields line_name (try_verify oracle ref n root).
Proof.
  intros H1 H2. unfold try_verify, attempt. apply yields_catch; [|intros; apply yields_ret; exact I].
  apply (yields_bind (fun _ => True)); [apply yields_true|]. intros _ _. apply yields_ret. split; assumption.
Qed.

Lemma yields_try_origin_head root : yields line_name (try_origin_head oracle root).
Proof.
  unfold try_origin_head, attempt. apply yields_catch; [|intros; apply yields_ret; exact I].
  apply (yields_bind (fun _ => True)); [apply yields_true|]. intros out _. apply yields_ret.
  destruct (match_prefix_line _ _) as [b|] eqn:E; [|exact I].
  exact (match_prefix_line_line _ _ _ E).
Qed.
End Det.

(** X7: [detectTargetBranch] never throws: it appends only its probes of the
    remote and of the refs, run in the workspace root, and resolves to a
    non-empty branch name on a single line. *)
Theorem detectTargetBranch_resolves oracle root tr :
  exists b d, detectTargetBranch oracle root tr = (inl b, tr ++ d) /\
    b <> EmptyString /\ take_line b = b /\ Forall (probe root) d.
Proof.
  destruct (nothrow_detectTargetBranch oracle root tr) as (b & tr' & E).
  assert (A : appends (probe root) (detectTargetBranch oracle root)).
  { unfold detectTargetBranch, hasRemote, or_else, try_origin_head, try_verify, attempt.
    repeat appends_step; try apply appends_try_local; repeat split. }
  assert (Y : yields (fun b => b <> EmptyString /\ take_line b = b) (detectTargetBranch oracle root)).
  { unfold detectTargetBranch.
    apply (yields_bind (fun _ => True)); [apply yields_true|]. intros remoteExists _.
    apply (yields_bind (line_name)).
    - apply yields_or_else.
      + destruct remoteExists; [|apply yields_ret; exact I].
        apply yields_or_else; [apply yields_try_origin_head|].
        apply yields_or_else; apply yields_try_verify; first [discriminate | reflexivity].
      + apply yields_try_local. repeat constructor; first [discriminate | reflexivity].
    - intros [b'|] Hb; apply yields_ret; [exact Hb|]. split; [discriminate|reflexivity]. }
  destruct (A tr) as (d & Ed & Fd). rewrite E in Ed. simpl in Ed. subst tr'.
  exists b, d. split; [exact E|]. destruct (Y tr b _ E) as [H1 H2]. auto.
Qed.
End Detect.

(* ------------------------------------------------------------------ *)
(** ** Where the temporary worktree lives *)

Module WorktreePath.
Import JsString NodePath TraceProps PathFacts.
Local Open Scope list_scope.

Lemma merge_dir_resolve_segs now root src cwd :
  resolve cwd (Git.merge_dir now root src) =
  render (normalize (base_segs cwd root) ++ [".stoneforge"; ".worktrees"; Git.merge_dir_name now src]).
Proof.
  set (n := Git.merge_dir_name now src).
  assert (Hn : split n = [n]) by apply split_no_slash, merge_dir_name_no_slash.
  assert (Hp : Forall plain [".stoneforge"; ".worktrees"; n]).
  { repeat constructor; try apply merge_dir_name_plain;
      unfold plain; repeat split; discriminate. }
  assert (Hne : n <> EmptyString) by apply merge_dir_name_plain.
  unfold Git.merge_dir, base_segs. fold n. fold wt_base.
  destruct (String.eqb_spec root EmptyString) as [->|Hr].
  - rewrite join3_empty_root by exact Hne. unfold resolve.
    replace (is_absolute (wt_base ++ String slash n)) with false by reflexivity.
    replace (is_absolute EmptyString) with false by reflexivity.
    rewrite split_app_slash, Hn, split_wt_base.
    change (split EmptyString) with [EmptyString]. rewrite normalize_app_empty.
    change ([".stoneforge"; ".worktrees"] ++ [n]) with [".stoneforge"; ".worktrees"; n].
    rewrite normalize_app_plain by exact Hp. reflexivity.
  - rewrite join3_root by assumption. unfold resolve.
    rewrite str_app_assoc, is_absolute_app by exact Hr.
    rewrite <- str_app_assoc.
    rewrite split_app_slash, split_app_slash, Hn, split_wt_base.
    rewrite <- !app_assoc.
    change ([".stoneforge"; ".worktrees"] ++ [n]) with [".stoneforge"; ".worktrees"; n].
    rewrite app_assoc, normalize_app_plain by exact Hp. reflexivity.
Qed.

Lemma fold_norm_nonempty l st :
  Forall (fun s => s <> EmptyString) st ->
  Forall (fun s => s <> EmptyString) (fold_left norm_step l st).
Proof.
  revert st. induction l as [|x l IH]; simpl; intros st H; [exact H|].
  apply IH. unfold norm_step.
  destruct (String.eqb_spec x EmptyString) as [->|Hx]; [exact H|].
  destruct (String.eqb x "."); [exact H|]. simpl.
  destruct (String.eqb x ".."); [destruct H as [|? ? _ H]; simpl; [apply List.Forall_nil|exact H]|].
  constructor; assumption.
Qed.

Lemma normalize_nonempty l : Forall (fun s => s <> EmptyString) (normalize l).
Proof.
  unfold normalize. apply Forall_rev, fold_norm_nonempty. constructor.
Qed.

Lemma str_app_nil (s : string) : (s ++ EmptyString)%string = s.
Proof. induction s; simpl; congruence. Qed.

Lemma render_segs_app xs ys :
  render_segs (xs ++ ys) = (render_segs xs ++ render_segs ys)%string.
Proof. induction xs as [|x xs IH]; simpl; [reflexivity|]. rewrite IH, !str_app_assoc. reflexivity. Qed.

(** X8: the temporary worktree of [mergeBranch] resolves to
    [.stoneforge/.worktrees/<name>] below the resolved workspace root. *)
Theorem merge_dir_location now root src cwd :
  resolve cwd (Git.merge_dir now root src) =
  ((if String.eqb (resolve cwd root) "/" then EmptyString else resolve cwd root)
   ++ "/.stoneforge/.worktrees/" ++ Git.merge_dir_name now src)%string.
Proof.
  rewrite merge_dir_resolve_segs.
  assert (Eroot : resolve cwd root = render (normalize (base_segs cwd root))) by reflexivity.
  rewrite Eroot. assert (F := normalize_nonempty (base_segs cwd root)).
  destruct (normalize (base_segs cwd root)) as [|x xs] eqn:E.
  - simpl. rewrite str_app_nil. reflexivity.
  - unfold render. cbn [app]. change (render_segs (x :: xs ++ [".stoneforge"; ".worktrees"; Git.merge_dir_name now src]))
      with (render_segs ((x :: xs) ++ [".stoneforge"; ".worktrees"; Git.merge_dir_name now src])).
    rewrite render_segs_app.
    inversion F as [|? ? Hx _]; subst.
    replace (String.eqb (render_segs (x :: xs)) "/") with false.
    + simpl. rewrite str_app_nil. reflexivity.
    + symmetry. apply String.eqb_neq. simpl. destruct x as [|c x]; [contradiction|].
      simpl. intros H. injection H as H. destruct x, (render_segs xs); discriminate.
Qed.
End WorktreePath.

Module DirName.
Import JsString TraceProps PathFacts.
Local Open Scope list_scope.

Lemma safe_name_chars s : Forall name_char (list_ascii_of_string (safe_name s)).
Proof.
  induction s as [|c s IH]; simpl; constructor; [|exact IH].
  left. destruct (is_alnum_dash c) eqn:E; [exact E | reflexivity].
Qed.

Lemma digit_char n : name_char (ascii_of_N (48 + N.modulo n 10)).
Proof.
  left. assert (Hlt : (N.modulo n 10 < 10)%N) by (apply N.mod_lt; discriminate).
  revert Hlt. generalize (N.modulo n 10). intros k Hk.
  unfold is_alnum_dash. unfold nat_of_ascii.
  rewrite Ascii.N_ascii_embedding by lia.
  assert (H1 : (48 <= N.to_nat (48 + k))%nat) by lia.
  assert (H2 : (N.to_nat (48 + k) <= 57)%nat) by lia.
  apply Nat.leb_le in H1. apply Nat.leb_le in H2. rewrite H1, H2. reflexivity.
Qed.

Lemma digits_chars fuel n acc :
  Forall name_char (list_ascii_of_string acc) ->
  Forall name_char (list_ascii_of_string (digits_aux fuel n acc)).
Proof.
  revert n acc. induction fuel as [|f IH]; simpl; intros n acc H; [exact H|].
  assert (H' : Forall name_char (list_ascii_of_string (String (ascii_of_N (48 + N.modulo n 10)) acc))).
  { simpl. constructor; [apply digit_char | exact H]. }
  destruct (N.ltb n 10); [exact H' | apply IH; exact H'].
Qed.

(** X9: the name of the temporary worktree consists of ASCII letters,
    digits, ['-'] and ['_'] only, whatever the source branch. *)
Theorem merge_dir_name_charset now src :
  Forall name_char (list_ascii_of_string (Git.merge_dir_name now src)).
Proof.
  unfold Git.merge_dir_name. rewrite !list_ascii_app.
  repeat (apply Forall_app; split).
  - simpl. repeat (apply List.Forall_cons; [first [left; reflexivity | right; reflexivity] |]).
    apply List.Forall_nil.
  - apply safe_name_chars.
  - simpl. apply List.Forall_cons; [left; reflexivity | apply List.Forall_nil].
  - apply digits_chars. apply List.Forall_nil.
Qed.
End DirName.

(* ------------------------------------------------------------------ *)
(** ** The merge-queue diagnostics *)

Module MergeQueueFacts.
Import Diagnostics MergeQueue.
Local Open Scope list_scope.

Section Facts.
Variable updatedAt : Task -> option string.
Variable date_ms : string -> option Z.
Variable now : Z.

Lemma mq_step_inv n acc task :
  queue_inv n acc -> queue_inv (S n) (mq_step updatedAt date_ms now acc task).
Proof.
  intros (H1 & H2 & H3). unfold mq_step.
  set (ms := merge_status_of task). set (ov := over_threshold updatedAt date_ms now task).
  destruct (String.eqb_spec ms "testing") as [Et|Et];
  destruct (String.eqb_spec ms "merging") as [Em|Em];
  destruct (String.eqb_spec ms "pending") as [Ep|Ep];
  try congruence; destruct ov; simpl;
  unfold queue_inv; simpl; rewrite ?length_app; simpl;
  (split; [lia|split; [|lia]]);
  try (apply Forall_app; split; [exact H2|constructor; [simpl; auto|constructor]]);
  exact H2.
Qed.

Lemma fold_queue_inv tasks n acc :
  queue_inv n acc -> queue_inv (n + length tasks) (fold_left (mq_step updatedAt date_ms now) tasks acc).
Proof.
  revert n acc. induction tasks as [|t tasks IH]; simpl; intros n acc H.
  - rewrite Nat.add_0_r. exact H.
  - rewrite <- Nat.add_succ_comm. apply IH, mq_step_inv, H.
Qed.

Lemma mq_step_members acc t e :
  In e (stuckTasks (mq_step updatedAt date_ms now acc t)) <->
  In e (stuckTasks acc) \/ (stuck_cond updatedAt date_ms now t /\ e = mq_entry updatedAt t (merge_status_of t)).
Proof.
  unfold mq_step, stuck_cond.
  set (ms := merge_status_of t). set (ov := over_threshold updatedAt date_ms now t).
  destruct (String.eqb_spec ms "testing") as [Et|Et];
  destruct (String.eqb_spec ms "merging") as [Em|Em];
  try congruence; destruct ov; simpl; rewrite ?in_app_iff; simpl;
  split; intros H; intuition (try congruence).
Qed.

Lemma fold_members tasks acc e :
  In e (stuckTasks (fold_left (mq_step updatedAt date_ms now) tasks acc)) <->
  In e (stuckTasks acc) \/
  exists t, In t tasks /\ stuck_cond updatedAt date_ms now t /\ e = mq_entry updatedAt t (merge_status_of t).
Proof.
  revert acc. induction tasks as [|t tasks IH]; simpl; intros acc.
  - split; [auto|]. intros [H|(t & [] & _)]. exact H.
  - rewrite IH, mq_step_members. split.
    + intros [[H|H]|(t' & H1 & H2)]; [auto|right; eauto|right; eauto].
    + intros [H|(t' & [<-|H1] & H2)]; [auto|left; right; exact H2|right; eauto].
Qed.

Lemma status_eqb_review s : status_eqb s Review = true <-> s = Review.
Proof. destruct s; simpl; split; congruence. Qed.
End Facts.

(** X10: the counters of [collectMergeQueue] agree with its list: the stuck
    list has one entry per stuck count, each in [testing] or [merging], and
    the three counters add up to at most the number of review tasks. *)
Theorem collectMergeQueue_counts updatedAt date_ms now allTasks :
  let r := collectMergeQueue updatedAt date_ms now allTasks in
  length (stuckTasks r) = stuckInTestingCount r + stuckInMergingCount r /\
  Forall (fun e => mq_mergeStatus e = "testing" \/ mq_mergeStatus e = "merging") (stuckTasks r) /\
  awaitingMergeCount r + stuckInTestingCount r + stuckInMergingCount r <=
    length (List.filter (fun t => status_eqb (status t) Review) allTasks).
Proof.
  intros r. apply (fold_queue_inv updatedAt date_ms now _ 0 (mkMQ 0 0 0 [])).
  unfold queue_inv. simpl. repeat split; [constructor|lia].
Qed.

(** X11: the stuck entries of [collectMergeQueue] are exactly the entries
    of the review tasks in [testing] or [merging] whose time since
    [updatedAt] exceeds ten minutes. *)
Theorem collectMergeQueue_stuck_members updatedAt date_ms now allTasks e :
  In e (stuckTasks (collectMergeQueue updatedAt date_ms now allTasks)) <->
  exists t, In t allTasks /\ status t = Review /\
    (merge_status_of t = "testing" \/ merge_status_of t = "merging") /\
    over_threshold updatedAt date_ms now t = true /\
    e = mq_entry updatedAt t (merge_status_of t).
Proof.
  unfold collectMergeQueue. cbv zeta. rewrite fold_members. simpl. split.
  - intros [[]|(t & Ht & (H1 & H2) & H3)]. apply filter_In in Ht as [Ht Hs].
    apply status_eqb_review in Hs. exists t. auto.
  - intros (t & Ht & Hs & H1 & H2 & H3). right. exists t. split; [|split; [split|]; assumption].
    apply filter_In. split; [exact Ht|]. apply status_eqb_review. exact Hs.
Qed.

(** X12: a review task in [testing] or [merging] without [updatedAt]
    counts as updated at the epoch: it is listed once [now] is past ten
    minutes. *)
Theorem collectMergeQueue_missing_updatedAt updatedAt date_ms now allTasks t :
  In t allTasks -> status t = Review ->
  merge_status_of t = "testing" \/ merge_status_of t = "merging" ->
  updatedAt t = None -> (STUCK_MERGE_THRESHOLD_MS < now)%Z ->
  In (mq_entry updatedAt t (merge_status_of t))
     (stuckTasks (collectMergeQueue updatedAt date_ms now allTasks)).
Proof.
  intros Ht Hs Hm Hu Hn. unfold collectMergeQueue. cbv zeta. apply fold_members.
  right. exists t. split; [apply filter_In; split; [exact Ht | apply status_eqb_review; exact Hs]|].
  split; [|reflexivity]. split; [exact Hm|].
  unfold over_threshold, updated_ms. rewrite Hu. simpl. apply Z.ltb_lt. lia.
Qed.

Lemma collectMergeQueue_missing_updatedAt_witness :
  let t := mkTask "el-1" "Fix login" Review (Some (mkMeta None None (Some "testing"))) in
  (In t [t] /\ status t = Review /\
   (merge_status_of t = "testing" \/ merge_status_of t = "merging") /\
   (fun _ : Task => @None string) t = None /\ (STUCK_MERGE_THRESHOLD_MS < 1700000000000)%Z) /\
  In (mq_entry (fun _ => None) t (merge_status_of t))
     (stuckTasks (collectMergeQueue (fun _ => None) (fun _ => None) 1700000000000 [t])).
Proof.
  intros t.
  assert (H1 : In t [t]) by (left; reflexivity).
  assert (H2 : status t = Review) by reflexivity.
  assert (H3 : merge_status_of t = "testing" \/ merge_status_of t = "merging") by (left; reflexivity).
  assert (H4 : (fun _ : Task => @None string) t = None) by reflexivity.
  assert (H5 : (STUCK_MERGE_THRESHOLD_MS < 1700000000000)%Z) by (unfold STUCK_MERGE_THRESHOLD_MS; lia).
  split; [repeat split; assumption|].
  exact (collectMergeQueue_missing_updatedAt (fun _ => None) (fun _ => None) 1700000000000 [t] t
           H1 H2 H3 H4 H5).
Defined.
End MergeQueueFacts.

(* ------------------------------------------------------------------ *)
(** ** The agent-pool diagnostics *)

Module AgentPoolFacts.
Import Diagnostics AgentPool.
Local Open Scope list_scope.

Section Facts.
Variable getActiveSession : string -> option Session.
Variable date_ms : string -> option Z.
Variable now : Z.
Variable round_percent : nat -> nat -> Z.

Lemma fold_pool_counts agents b i ss :
  length ss = b ->
  let r := fold_left (pool_step getActiveSession date_ms now) agents (b, i, ss) in
  fst (fst r) + snd (fst r) = b + i + length agents /\ length (snd r) = fst (fst r).
Proof.
  revert b i ss. induction agents as [|a agents IH]; intros b i ss H; cbn [fold_left length].
  - split; [simpl; lia|exact H].
  - destruct (pool_step getActiveSession date_ms now (b, i, ss) a) as [[b' i'] ss'] eqn:Ep.
    assert (Hs : length ss' = b' /\ b' + i' = S (b + i)).
    { unfold pool_step in Ep. destruct (getActiveSession (agent_id a)) as [s|];
        [destruct (String.eqb (session_status s) "running")|];
        injection Ep as <- <- <-; rewrite ?length_app; simpl; lia. }
    destruct Hs as [Hs1 Hs2]. destruct (IH b' i' ss' Hs1) as [H1 H2]. split; [lia|exact H2].
Qed.

Lemma fold_pool_members agents b i ss e :
  In e (snd (fold_left (pool_step getActiveSession date_ms now) agents (b, i, ss))) <->
  In e ss \/ exists a s, In a agents /\ getActiveSession (agent_id a) = Some s /\
                         session_status s = "running" /\ e = session_entry date_ms now a s.
Proof.
  revert b i ss. induction agents as [|a agents IH]; intros b i ss; cbn [fold_left].
  - split; [auto|]. intros [H|(a & s & [] & _)]. exact H.
  - destruct (pool_step getActiveSession date_ms now (b, i, ss) a) as [[b' i'] ss'] eqn:Ep.
    rewrite IH. unfold pool_step in Ep. destruct (getActiveSession (agent_id a)) as [s|] eqn:Ea.
    + destruct (String.eqb_spec (session_status s) "running") as [Er|Er];
        injection Ep as <- <- <-.
      * rewrite in_app_iff. simpl. split.
        -- intros [[H|[H|[]]]|(a' & s' & H1 & H2)]; [auto|right; exists a, s; split; [left; reflexivity|auto]|right; exists a', s'; split; [right; exact H1|exact H2]].
        -- intros [H|(a' & s' & [<-|H1] & H2 & H3 & H4)]; [auto| |right; exists a', s'; auto].
           left. right. left. rewrite Ea in H2. injection H2 as <-. auto.
      * split.
        -- intros [H|(a' & s' & H1 & H2)]; [auto|right; exists a', s'; split; [right; exact H1|exact H2]].
        -- intros [H|(a' & s' & [<-|H1] & H2 & H3 & H4)]; [auto| |right; exists a', s'; auto].
           rewrite Ea in H2. injection H2 as <-. contradiction.
    + injection Ep as <- <- <-. split.
      * intros [H|(a' & s' & H1 & H2)]; [auto|right; exists a', s'; split; [right; exact H1|exact H2]].
      * intros [H|(a' & s' & [<-|H1] & H2 & H3 & H4)]; [auto| |right; exists a', s'; auto].
        rewrite Ea in H2. discriminate.
Qed.
End Facts.

(** X13: every agent is counted once, as busy or as idle, each busy agent
    contributes one session, and an empty pool reports 0% utilization. *)
Theorem collectAgentPool_counts getActiveSession date_ms now round_percent agents :
  let r := collectAgentPool getActiveSession date_ms now round_percent agents in
  busyAgents r + idleAgents r = totalAgents r /\ totalAgents r = length agents /\
  length (sessions r) = busyAgents r /\ (totalAgents r = 0 -> utilizationPercent r = 0%Z).
Proof.
  intros r. subst r. unfold collectAgentPool.
  destruct (fold_pool_counts getActiveSession date_ms now agents 0 0 [] eq_refl) as [H1 H2].
  destruct (fold_left _ agents _) as [[busy idle] ss]. simpl in *.
  split; [lia|split; [reflexivity|split; [exact H2|]]].
  intros ->. reflexivity.
Qed.

(** X14: the sessions listed are exactly those of the agents whose active
    session is running. *)
Theorem collectAgentPool_sessions getActiveSession date_ms now round_percent agents e :
  In e (sessions (collectAgentPool getActiveSession date_ms now round_percent agents)) <->
  exists a s, In a agents /\ getActiveSession (agent_id a) = Some s /\
              session_status s = "running" /\ e = session_entry date_ms now a s.
Proof.
  unfold collectAgentPool.
  pose proof (fold_pool_members getActiveSession date_ms now agents 0 0 [] e) as H.
  destruct (fold_left _ agents _) as [[busy idle] ss]. simpl in *.
  rewrite H. split; [intros [[]|H']; exact H'|intros H'; right; exact H'].
Qed.
End AgentPoolFacts.

(* ------------------------------------------------------------------ *)
(** ** The rate-limit tracker: further properties *)

Module TrackerFacts.
Import RateLimit RateLimitFacts.

Lemma soonest_fold (M : gmap string InternalEntry) :
  (map_fold soonest_step None M = None -> forall k v, M !! k = Some v -> False) /\
  (forall s, map_fold soonest_step None M = Some s ->
     (exists k v, M !! k = Some v /\ resetsAt v = s) /\
     forall k v, M !! k = Some v -> (s <= resetsAt v)%Z).
Proof.
  revert M. apply (map_fold_weak_ind
    (fun r M => (r = None -> forall k v, M !! k = Some v -> False) /\
       (forall s, r = Some s -> (exists k v, M !! k = Some v /\ resetsAt v = s) /\
          forall k v, M !! k = Some v -> (s <= resetsAt v)%Z))).
  - split; [intros _ k v; rewrite lookup_empty; discriminate | intros s [=]].
  - intros i x M r Hi [IHn IHs]. unfold soonest_step.
    destruct r as [s0|].
    + destruct (IHs s0 eq_refl) as [(k0 & v0 & Hk0 & Hv0) Hb].
      destruct (Z.ltb_spec (resetsAt x) s0); (split; [discriminate|]); intros s [= <-].
      * split; [exists i, x; split; [apply lookup_insert_eq|reflexivity]|].
        intros k v Hk. apply lookup_insert_Some in Hk as [[-> <-]|[_ Hk]]; [lia|].
        specialize (Hb k v Hk). lia.
      * split.
        -- exists k0, v0. split; [|exact Hv0].
           rewrite lookup_insert_ne; [exact Hk0|]. intros ->. congruence.
        -- intros k v Hk. apply lookup_insert_Some in Hk as [[-> <-]|[_ Hk]]; [lia|].
           exact (Hb k v Hk).
    + split; [discriminate|]. intros s [= <-].
      split; [exists i, x; split; [apply lookup_insert_eq|reflexivity]|].
      intros k v Hk. apply lookup_insert_Some in Hk as [[-> <-]|[_ Hk]]; [lia|].
      exfalso. exact (IHn eq_refl k v Hk).
Qed.

(** X15: [getSoonestResetTime] gives the least reset time among the
    entries still live at [now], and [undefined] exactly when no entry is
    live. *)
Theorem getSoonestResetTime_least n m :
  (fst (getSoonestResetTime n m) = None <->
   forall e en, m !! e = Some en -> (resetsAt en <= n)%Z) /\
  (forall s, fst (getSoonestResetTime n m) = Some s ->
     (exists e en, m !! e = Some en /\ resetsAt en = s /\ (n < s)%Z) /\
     forall e en, m !! e = Some en -> (n < resetsAt en)%Z -> (s <= resetsAt en)%Z).
Proof.
  unfold getSoonestResetTime. cbn [fst].
  destruct (soonest_fold (expireStale n m)) as [Hn Hs].
  assert (Hlive : forall e en, expireStale n m !! e = Some en <->
                               m !! e = Some en /\ (n < resetsAt en)%Z).
  { intros e en. rewrite expireStale_lookup. destruct (m !! e) as [en'|]; [|split; [discriminate|intros [[=] _]]].
    destruct (Z.leb_spec (resetsAt en') n); split.
    - discriminate.
    - intros [[= ->] ?]. lia.
    - intros [= ->]. split; [reflexivity|lia].
    - intros [[= ->] _]. reflexivity. }
  split.
  - split.
    + intros H e en He. destruct (Z.le_gt_cases (resetsAt en) n) as [?|Hlt]; [assumption|].
      exfalso. apply (Hn H e en). apply Hlive. split; [exact He|lia].
    + intros H. destruct (map_fold soonest_step None (expireStale n m)) as [s|] eqn:E; [|reflexivity].
      destruct (Hs s eq_refl) as [(k & v & Hk & _) _].
      apply Hlive in Hk as [Hk Hlt]. specialize (H k v Hk). lia.
  - intros s E. destruct (Hs s E) as [(k & v & Hk & Hv) Hb].
    apply Hlive in Hk as [Hk Hlt]. split.
    + exists k, v. split; [exact Hk|split; [exact Hv|lia]].
    + intros e en He Hlt'. apply (Hb e en). apply Hlive. split; assumption.
Qed.

(** X16: [isAllLimited] answers [true] exactly when the chain is not
    empty and [getAvailableExecutable] finds no executable, and both
    leave the tracker in the same state. *)
Theorem isAllLimited_getAvailableExecutable clock C m :
  (fst (isAllLimited clock C m) = true <->
   C <> [] /\ fst (getAvailableExecutable clock C m) = None) /\
  snd (isAllLimited clock C m) = snd (getAvailableExecutable clock C m).
Proof.
  unfold isAllLimited, getAvailableExecutable. destruct C as [|e rest].
  - simpl. split; [split; [discriminate|intros [H _]; congruence]|reflexivity].
  - rewrite every_loop. destruct (getAvailableExecutable_loop clock 0 (e :: rest) m) as [[x|] m'];
      cbn [fst snd]; (split; [|reflexivity]).
    + split; [discriminate|intros [_ [=]]].
    + split; [intros _; split; [discriminate|reflexivity]|reflexivity].
Qed.

(** X17: the lazy cleanup of [isLimited] cannot be observed later: after
    an [isLimited] call at time [n], at any time [n'] from [n] on the
    live entries and every [isLimited] answer are those of the tracker
    before the call. *)
Theorem isLimited_expiry_unobservable n n' e m (Hn : (n <= n')%Z) :
  expireStale n' (snd (isLimited n e m)) = expireStale n' m /\
  forall x, limited_at n' (snd (isLimited n e m)) x = limited_at n' m x.
Proof.
  unfold isLimited. destruct (m !! e) as [en|] eqn:E; [|split; reflexivity].
  destruct (Z.leb_spec (resetsAt en) n) as [Hle|]; [|split; reflexivity]. cbn [snd].
  split.
  - apply map_eq. intros x. rewrite !expireStale_lookup.
    destruct (decide (x = e)) as [->|Hx].
    + rewrite lookup_delete_eq, E. destruct (Z.leb_spec (resetsAt en) n'); [reflexivity|lia].
    + rewrite lookup_delete_ne by congruence. reflexivity.
  - intros x. rewrite !limited_at_alt.
    destruct (decide (x = e)) as [->|Hx].
    + rewrite lookup_delete_eq, E. destruct (Z.ltb_spec n' (resetsAt en)); [lia|reflexivity].
    + rewrite lookup_delete_ne by congruence. reflexivity.
Qed.

(** An entry that reset at 500, read at 1000 and again at 2000. *)
Lemma isLimited_expiry_unobservable_witness :
  (1000 <= 2000)%Z /\
  limited_at 2000 (snd (isLimited 1000 "claude" {[ "claude" := mkEntry 500 0 ]})) "claude" =
  limited_at 2000 {[ "claude" := mkEntry 500 0 ]} "claude".
Proof.
  split; [lia|].
  exact (proj2 (isLimited_expiry_unobservable 1000 2000 "claude"
                  {[ "claude" := mkEntry 500 0 ]} ltac:(lia)) "claude").
Defined.

(** X18: after [markLimited(e, t)], [isLimited(e)] answers [true] at every
    time before [t], and no other executable's entry changes. *)
Theorem markLimited_then_isLimited now e t m :
  (forall n, (n < t)%Z -> limited_at n (markLimited now e t m) e = true) /\
  (forall x, x <> e -> markLimited now e t m !! x = m !! x).
Proof.
  split.
  - intros n Hn. rewrite limited_at_alt.
    pose proof (markLimited_lookup now e t m) as H.
    destruct (markLimited now e t m !! e) as [en|]; [|discriminate].
    injection H as H. apply Z.ltb_lt. rewrite H.
    destruct (option_map resetsAt (m !! e)); lia.
  - intros x Hx. apply markLimited_lookup_ne. exact Hx.
Qed.

End TrackerFacts.
